(** * The sliding-window rate limiter of [api/analyze.ts]

    [checkRateLimit] keeps, for every caller identity, the timestamps of
    the requests it admitted (a [Map<string, number[]>]), prunes the
    entries that left the one-hour window and admits a request while
    fewer than [MAX_REQUESTS_PER_HOUR] entries remain.

    The module-level mutable map [requestLog] is threaded explicitly:
    a call takes the map and returns the decision together with the new
    map.  The clock read [Date.now()] becomes the argument [now].
    Timestamps are integral milliseconds; a JavaScript time value stays
    below 2^53 in magnitude, where [now - 60 * 60 * 1000] is exact, so
    they are modelled in [Z].  The second API handler of the repository
    carries a verbatim copy of the function with a map of its own. *)

From stdpp Require Import gmap strings list fin_maps.
From Stdlib Require Import ZArith Lia.

Local Open Scope Z_scope.

(** ** The code *)

(** [const MAX_REQUESTS_PER_HOUR = 20;] *)
Definition MAX_REQUESTS_PER_HOUR : nat := 20.

(** [requestLog.get(ip) || []]: an array is always truthy, so the
    default is taken exactly when the key is absent. *)
Definition requestsOf (requestLog : gmap string (list Z)) (ip : string) : list Z :=
  default [] (requestLog !! ip).

(** [function checkRateLimit(ip: string): boolean], lines 7-21.  The test
    [recentRequests.length >= MAX_REQUESTS_PER_HOUR] is written with the
    two sides swapped, [MAX_REQUESTS_PER_HOUR ≤ length recentRequests]. *)
Definition checkRateLimit (now : Z) (ip : string) (requestLog : gmap string (list Z))
  : bool * gmap string (list Z) :=
  let oneHourAgo := now - 60 * 60 * 1000 in
  let requests := requestsOf requestLog ip in
  let recentRequests := filter (λ time, time > oneHourAgo) requests in
  if bool_decide (MAX_REQUESTS_PER_HOUR ≤ length recentRequests)%nat then
    (false, requestLog)
  else
    (true, <[ip := recentRequests ++ [now]]> requestLog).

(** [const ip = req.headers['x-forwarded-for'] as string
               || req.socket.remoteAddress || 'unknown';] (line 44).
    A header or address that is absent or the empty string is falsy. *)
Definition truthy (s : option string) : bool :=
  match s with
  | Some s => negb (String.eqb s "")
  | None => false
  end.

Definition clientIp (forwardedFor remoteAddress : option string) : string :=
  if truthy forwardedFor then default "" forwardedFor
  else if truthy remoteAddress then default "" remoteAddress
  else "unknown".

(** ** The same algorithm with its two constants as parameters

    The specification speaks of a configurable [quota] and
    [windowDurationMs]; the code fixes them to 20 and 3 600 000.
    [limiter] is the body of [checkRateLimit] with the two literals
    abstracted, and [checkRateLimit_limiter] below shows that the code
    is its instance. *)
Definition limiter (quota : nat) (windowDurationMs : Z)
    (now : Z) (ip : string) (requestLog : gmap string (list Z))
  : bool * gmap string (list Z) :=
  let cutoff := now - windowDurationMs in
  let requests := requestsOf requestLog ip in
  let retained := filter (λ time, time > cutoff) requests in
  if bool_decide (quota ≤ length retained)%nat then
    (false, requestLog)
  else
    (true, <[ip := retained ++ [now]]> requestLog).

(** ** Sequences of calls

    The handler calls the limiter once per inbound request.  A run is
    a list of calls, each with the clock value it read and the identity
    it was made for; it yields the decisions in order and the final
    map. *)
Fixpoint run (step : Z → string → gmap string (list Z) → bool * gmap string (list Z))
    (calls : list (Z * string)) (requestLog : gmap string (list Z))
  : list bool * gmap string (list Z) :=
  match calls with
  | [] => ([], requestLog)
  | (now, ip) :: rest =>
      let '(ok, requestLog') := step now ip requestLog in
      let '(oks, requestLog'') := run step rest requestLog' in
      (ok :: oks, requestLog'')
  end.

(** The timestamps at which [ip] was admitted during a run: the clock
    values of the calls for [ip] that returned [true]. *)
Fixpoint admittedTimes (ip : string) (calls : list (Z * string)) (oks : list bool)
  : list Z :=
  match calls, oks with
  | (now, ip') :: calls', ok :: oks' =>
      if ok && bool_decide (ip' = ip)
      then now :: admittedTimes ip calls' oks'
      else admittedTimes ip calls' oks'
  | _, _ => []
  end.

(** Clock values that never go backwards, starting no earlier than [t0]. *)
Fixpoint nondecreasingFrom (t0 : Z) (times : list Z) : bool :=
  match times with
  | [] => true
  | t :: times' => bool_decide (t0 ≤ t) && nondecreasingFrom t times'
  end.

Definition nondecreasing (times : list Z) : bool :=
  match times with
  | [] => true
  | t :: times' => nondecreasingFrom t times'
  end.

(** The oldest (smallest) timestamp of a stored sequence. *)
Fixpoint oldest (requests : list Z) : option Z :=
  match requests with
  | [] => None
  | t :: requests' =>
      Some (match oldest requests' with
            | None => t
            | Some t' => Z.min t t'
            end)
  end.

(** The entries of a stored sequence that have left the window at [now]. *)
Definition expired (windowDurationMs now : Z) (requests : list Z) : list Z :=
  filter (λ time, time ≤ now - windowDurationMs) requests.

(** The entries that the pruning filter keeps at [now]. *)
Definition retainedAt (windowDurationMs now : Z) (requests : list Z) : list Z :=
  filter (λ time, time > now - windowDurationMs) requests.

(** ** The operation as the specification words it

    Steps 1-5 of the specification's description of
    [checkRateLimit(identity, now)], as a relation between the map
    before, the decision and the map after.  It is compared with the
    code in [limiter_refines_spec]. *)
Inductive specCheck (quota : nat) (windowDurationMs : Z)
    (now : Z) (identity : string) (stored : gmap string (list Z))
  : bool → gmap string (list Z) → Prop :=
| spec_reject retained :
    retained = filter (λ t, ¬ t ≤ now - windowDurationMs) (default [] (stored !! identity)) →
    (length retained ≥ quota)%nat →
    specCheck quota windowDurationMs now identity stored false stored
| spec_admit retained :
    retained = filter (λ t, ¬ t ≤ now - windowDurationMs) (default [] (stored !! identity)) →
    ¬ (length retained ≥ quota)%nat →
    specCheck quota windowDurationMs now identity stored true
      (<[identity := retained ++ [now]]> stored).

(** ** Notions used to state the properties *)

(** No identity holds more than [quota] stored timestamps. *)
Definition bounded (quota : nat) (requestLog : gmap string (list Z)) : Prop :=
  ∀ ip, (length (requestsOf requestLog ip) ≤ quota)%nat.

(** The number of timestamps of [times] in the trailing window
    [(now - windowDurationMs, now]]. *)
Definition windowCount (windowDurationMs now : Z) (times : list Z) : nat :=
  length (filter (λ t, now - windowDurationMs < t ∧ t ≤ now) times).

(** The map [m] agrees with the full list [admitted] of the timestamps
    admitted so far for [ip] above every cutoff a call at or after
    [last] can use, and [admitted] respects the window bound. *)
Definition tracks (quota : nat) (windowDurationMs : Z)
    (last : Z) (m : gmap string (list Z)) (admitted : list Z) (ip : string) : Prop :=
  (∀ c, last - windowDurationMs ≤ c →
     filter (λ t, t > c) (requestsOf m ip) = filter (λ t, t > c) admitted)
  ∧ (∀ now, (windowCount windowDurationMs now admitted ≤ quota)%nat).

(** ** The request handler of [api/analyze.ts]

    Text that the code inspects (request fields, model output) is a
    JavaScript string, modelled as its list of UTF-16 code units.  The
    identity, the HTTP method, the API key and the fixed messages are
    only compared or passed on and stay Rocq strings. *)

(** The code units of an ASCII literal of the source. *)
Definition units (s : string) : list N :=
  map Ascii.N_of_ascii (String.list_ascii_of_string s).

(** [!x] on a string that may be absent: [undefined] and [''] are falsy. *)
Definition present (x : option (list N)) : bool :=
  match x with
  | Some (_ :: _) => true
  | _ => false
  end.

(** A property of the parsed body, as far as the handler looks at it.
    [req.body] is arbitrary JSON, so a property is absent, a string, or
    another value (null, a boolean, a number, an array, an object).  Of
    such a value the handler uses the truthiness ([!x], line 52) and the
    conversion to a string by the template literal of
    [buildAnalysisPrompt], which yields a string or throws a [TypeError]
    with a message (an object whose [toString] is not a function and
    whose [valueOf] returns no primitive).  A parsed value holds no
    function, so its conversion has no effect and gives the same result
    each time the template uses the property. *)
Inductive Field :=
| Missing
| Str (text : list N)
| NonString (isTruthy : bool) (converted : string + list N).

(** [!!x] *)
Definition fieldTruthy (x : Field) : bool :=
  match x with
  | Missing => false
  | Str [] => false
  | Str (_ :: _) => true
  | NonString isTruthy _ => isTruthy
  end.

(** The conversion of [${x}]: [inl message] when it throws. *)
Definition fieldText (x : Field) : string + list N :=
  match x with
  | Missing => inr (units "undefined")
  | Str text => inr text
  | NonString _ converted => converted
  end.

(** The five properties destructured from [req.body] (line 50). *)
Record Body := {
  primaryKeyword : Field;
  city : Field;
  state : Field;
  highRankingUrl : Field;
  lowRankingUrl : Field
}.

(** What the handler reads of a request.  [forwardedFor] is the header
    [x-forwarded-for], which the code casts to a string.  [body] is
    [inl message] when reading or destructuring [req.body] throws (no
    body, malformed JSON): the exception carries a message and no
    [status]. *)
Record Request := {
  method : string;
  forwardedFor : option string;
  remoteAddress : option string;
  body : string + Body
}.

(** The five texts that the template of [buildAnalysisPrompt]
    interpolates. *)
Record PromptData := {
  data_primaryKeyword : list N;
  data_city : list N;
  data_state : list N;
  data_highRankingUrl : list N;
  data_lowRankingUrl : list N
}.

(** The conversions that evaluating the template performs, in the order
    in which the fields first occur in it (lines 128-131); the first one
    that throws ends the evaluation. *)
Definition promptData (fields : Body) : string + PromptData :=
  match fieldText (primaryKeyword fields) with
  | inl message => inl message
  | inr keyword =>
      match fieldText (city fields) with
      | inl message => inl message
      | inr cityText =>
          match fieldText (state fields) with
          | inl message => inl message
          | inr stateText =>
              match fieldText (highRankingUrl fields) with
              | inl message => inl message
              | inr highText =>
                  match fieldText (lowRankingUrl fields) with
                  | inl message => inl message
                  | inr lowText =>
                      inr {| data_primaryKeyword := keyword;
                             data_city := cityText;
                             data_state := stateText;
                             data_highRankingUrl := highText;
                             data_lowRankingUrl := lowText |}
                  end
              end
          end
      end
  end.

(** A block of [message.content]: its [type] and, when it has one, its
    [text]. *)
Record ContentBlock := {
  block_type : string;
  block_text : option (list N)
}.

(** The exception of a rejected API call: [error.status], [error.message]. *)
Record ApiError := {
  error_status : option Z;
  error_message : string
}.

Inductive ApiOutcome :=
| Resolved (content : list ContentBlock)
| Rejected (error : ApiError).

(** One invocation of [anthropic.messages.create] by the handler, with
    the key the client was built with (lines 62-84).  How many HTTP
    requests the SDK sends for one invocation is not modelled. *)
Record ApiCall := {
  call_apiKey : string;
  call_model : string;
  call_max_tokens : Z;
  call_temperature : string;
  call_prompt : list N
}.

(** The JSON bodies the handler sends. *)
Inductive Payload :=
| ErrorOnly (error : string)
| ErrorDetails (error : string) (details : string)
| Success (analysis : list N).

(** [res.status(s).end()] and [res.status(s).json(payload)]. *)
Inductive Reply :=
| Ended (status : Z)
| Json (status : Z) (payload : Payload).

(** What one invocation does: the reply, the API calls it made, and the
    rate limiter's map afterwards. *)
Record Outcome := {
  reply : Reply;
  apiCalls : list ApiCall;
  logAfter : gmap string (list Z)
}.

(** [Array.prototype.join]. *)
Fixpoint join (sep : list N) (parts : list (list N)) : list N :=
  match parts with
  | [] => []
  | [part] => part
  | part :: rest => part ++ sep ++ join sep rest
  end.

(** Lines 86-89: the text blocks of the message, joined by ['\n'] (code
    unit 10). *)
Definition responseText (content : list ContentBlock) : list N :=
  join [10%N]
    (map (λ block, default [] (block_text block))
       (filter (λ block, block_type block = "text") content)).

(** [export default async function handler(req, res)], lines 23-108.
    The four [setHeader] calls at the top do not influence what follows
    and are left out.  [buildAnalysisPrompt] is the prompt template of
    lines 110-188 applied to the converted fields, [api] is the
    external service, [apiKey] is [process.env.CLAUDE_API_KEY] and [now]
    the clock value that [checkRateLimit] reads.  A conversion that
    throws while the prompt is built is caught by the [catch] of line 96
    like any other exception. *)
Definition handler (buildAnalysisPrompt : PromptData → list N)
    (api : ApiCall → ApiOutcome) (apiKey : option string)
    (now : Z) (req : Request) (requestLog : gmap string (list Z)) : Outcome :=
  if String.eqb (method req) "OPTIONS" then
    {| reply := Ended 200; apiCalls := []; logAfter := requestLog |}
  else if negb (String.eqb (method req) "POST") then
    {| reply := Json 405 (ErrorOnly "Method not allowed");
       apiCalls := []; logAfter := requestLog |}
  else
    let ip := clientIp (forwardedFor req) (remoteAddress req) in
    let '(ok, requestLog') := checkRateLimit now ip requestLog in
    if negb ok then
      {| reply := Json 429 (ErrorOnly "Rate limit exceeded. Try again later.");
         apiCalls := []; logAfter := requestLog' |}
    else
      match body req with
      | inl message =>
          {| reply := Json 500 (ErrorDetails "Analysis failed" message);
             apiCalls := []; logAfter := requestLog' |}
      | inr fields =>
          if negb (fieldTruthy (primaryKeyword fields))
             || negb (fieldTruthy (city fields))
             || negb (fieldTruthy (state fields))
             || negb (fieldTruthy (highRankingUrl fields))
             || negb (fieldTruthy (lowRankingUrl fields))
          then
            {| reply := Json 400 (ErrorOnly "Missing required fields");
               apiCalls := []; logAfter := requestLog' |}
          else if negb (truthy apiKey) then
            {| reply := Json 500 (ErrorOnly "Server configuration error");
               apiCalls := []; logAfter := requestLog' |}
          else
            match promptData fields with
            | inl message =>
                {| reply := Json 500 (ErrorDetails "Analysis failed" message);
                   apiCalls := []; logAfter := requestLog' |}
            | inr data =>
                let prompt := buildAnalysisPrompt data in
                let call :=
                  {| call_apiKey := default "" apiKey;
                     call_model := "claude-sonnet-4-20250514";
                     call_max_tokens := 4096;
                     call_temperature := "0.3";
                     call_prompt := prompt |} in
                match api call with
                | Resolved content =>
                    {| reply := Json 200 (Success (responseText content));
                       apiCalls := [call]; logAfter := requestLog' |}
                | Rejected error =>
                    if bool_decide (error_status error = Some 401) then
                      {| reply := Json 401 (ErrorOnly "Invalid API key");
                         apiCalls := [call]; logAfter := requestLog' |}
                    else
                      {| reply :=
                           Json 500 (ErrorDetails "Analysis failed" (error_message error));
                         apiCalls := [call]; logAfter := requestLog' |}
                end
            end
      end.




(** The status code of a reply. *)
Definition replyStatus (r : Reply) : Z :=
  match r with
  | Ended status => status
  | Json status _ => status
  end.

(** All five required fields are truthy (the negation of the test of
    line 52). *)
Definition fieldsPresent (fields : Body) : bool :=
  fieldTruthy (primaryKeyword fields) && fieldTruthy (city fields)
  && fieldTruthy (state fields) && fieldTruthy (highRankingUrl fields)
  && fieldTruthy (lowRankingUrl fields).

(** The identity the handler derives from a request (line 44). *)
Definition identityOf (req : Request) : string :=
  clientIp (forwardedFor req) (remoteAddress req).


(** ** JavaScript string operations used by the front end *)

(** The code units that [String.prototype.trim] strips: ECMAScript's
    WhiteSpace (TAB, VT, FF, SP, NBSP, ZWNBSP and the space separators)
    and LineTerminator (LF, CR, LS, PS). *)
Definition isWhiteSpace (c : N) : bool :=
  (bool_decide (c ∈ [0x9; 0xA; 0xB; 0xC; 0xD; 0x20; 0xA0; 0x1680;
                     0x2028; 0x2029; 0x202F; 0x205F; 0x3000; 0xFEFF])
   || (0x2000 <=? c) && (c <=? 0x200A))%N.

Fixpoint trimStart (s : list N) : list N :=
  match s with
  | [] => []
  | c :: s' => if isWhiteSpace c then trimStart s' else s
  end.

Definition trimEnd (s : list N) : list N :=
  reverse (trimStart (reverse s)).

(** [s.trim()] *)
Definition trim (s : list N) : list N := trimEnd (trimStart s).

(** [s.startsWith(p)] *)
Fixpoint startsWith (p s : list N) : bool :=
  match p, s with
  | [], _ => true
  | a :: p', b :: s' => (a =? b)%N && startsWith p' s'
  | _ :: _, [] => false
  end.

(** [s.replace(pat, '')] with a string pattern: the first occurrence of
    [pat], if any, is removed. *)
Fixpoint replaceFirst (pat s : list N) : list N :=
  if startsWith pat s then drop (length pat) s
  else match s with
       | [] => []
       | c :: s' => c :: replaceFirst pat s'
       end.

(** [s.split('\n')] *)
Fixpoint splitLines (s : list N) : list (list N) :=
  match s with
  | [] => [[]]
  | c :: s' =>
      if (c =? 10)%N then [] :: splitLines s'
      else match splitLines s' with
           | line :: lines => (c :: line) :: lines
           | [] => [[c]]
           end
  end.

(** [s.split('**')] *)
Fixpoint splitBold (s : list N) : list (list N) :=
  match s with
  | [] => [[]]
  | c :: s' =>
      match s' with
      | c' :: s'' =>
          if (c =? 42)%N && (c' =? 42)%N then [] :: splitBold s''
          else match splitBold s' with
               | part :: parts => (c :: part) :: parts
               | [] => [[c]]
               end
      | [] => [[c]]
      end
  end.

(** [s.includes('**')] *)
Fixpoint includesBold (s : list N) : bool :=
  match s with
  | c :: s' =>
      match s' with
      | c' :: _ => (c =? 42)%N && (c' =? 42)%N || includesBold s'
      | [] => false
      end
  | [] => false
  end.

(** [s.replace(/^[-*]\s/, '')] *)
Definition stripBullet (s : list N) : list N :=
  match s with
  | c :: c' :: s' =>
      if ((c =? 45)%N || (c =? 42)%N) && isWhiteSpace c' then s' else s
  | _ => s
  end.

(** ** The form of [AnalysisForm.tsx]

    [formData] is a JavaScript object updated under a computed key
    ([[e.target.name]: e.target.value]), modelled as a finite map from
    property names to strings. *)

(** The initial state of [useState<SeoFormData>], lines 17-23. *)
Definition initialFormData : gmap string (list N) :=
  <["primaryKeyword" := []]> (<["city" := []]> (<["state" := []]>
    (<["highRankingUrl" := []]> (<["lowRankingUrl" := []]> ∅)))).

(** [handleChange], lines 25-30, for an event whose target has the given
    [name] and [value]. *)
Definition handleChange (name : string) (value : list N)
    (formData : gmap string (list N)) : gmap string (list N) :=
  <[name := value]> formData.

(** The form state after a sequence of change events. *)
Definition formAfter (events : list (string * list N)) : gmap string (list N) :=
  foldl (λ formData event, handleChange event.1 event.2 formData)
        initialFormData events.

(** [formData.<name>.trim()]: [None] is the [TypeError] of calling
    [trim] on [undefined]. *)
Definition trimmedField (formData : gmap string (list N)) (name : string)
  : option (list N) :=
  trim <$> formData !! name.

(** [a && b] where [a] and [b] evaluate to strings or throw: [b] is not
    evaluated when [a] is the empty string. *)
Definition andAlso (a b : option (list N)) : option (list N) :=
  match a with
  | None => None
  | Some [] => Some []
  | Some (_ :: _) => b
  end.

(** [isFormValid], lines 37-42; the value is a string, used for its
    truthiness. *)
Definition isFormValid (formData : gmap string (list N)) : option (list N) :=
  andAlso (andAlso (andAlso (andAlso
    (trimmedField formData "primaryKeyword")
    (trimmedField formData "city"))
    (trimmedField formData "state"))
    (trimmedField formData "highRankingUrl"))
    (trimmedField formData "lowRankingUrl").

(** [disabled={!isFormValid || isLoading}], line 113. *)
Definition submitDisabled (formData : gmap string (list N)) (isLoading : bool)
  : option bool :=
  (λ valid, negb (present (Some valid)) || isLoading) <$> isFormValid formData.

(** A property of the form state as the handler finds it in the body. *)
Definition fieldOf (value : option (list N)) : Field :=
  match value with
  | Some text => Str text
  | None => Missing
  end.

(** The fields the handler finds in the body that
    [JSON.stringify(formData)] produces. *)
Definition bodyOf (formData : gmap string (list N)) : Body :=
  {| primaryKeyword := fieldOf (formData !! "primaryKeyword");
     city := fieldOf (formData !! "city");
     state := fieldOf (formData !! "state");
     highRankingUrl := fieldOf (formData !! "highRankingUrl");
     lowRankingUrl := fieldOf (formData !! "lowRankingUrl") |}.

(** The names of the five inputs. *)
Definition fieldNames : list string :=
  ["primaryKeyword"; "city"; "state"; "highRankingUrl"; "lowRankingUrl"].

(** The string has a code unit that is not white space. *)
Definition hasVisible (s : list N) : bool :=
  existsb (λ c, negb (isWhiteSpace c)) s.

(** ** The renderer of [AnalysisOutput.tsx]

    The React elements that [renderContent] builds, without their
    [key]s. *)
Inductive Inline :=
| Plain (text : list N)
| Strong (text : list N).

Inductive Element :=
| H1 (text : list N)
| H2 (text : list N)
| H3 (text : list N)
| UL (items : list (list N))
| P (children : list Inline)
| BR.

(** The three variables the [forEach] callback updates. *)
Record RenderState := {
  elements : list Element;
  listItems : list (list N);
  inList : bool
}.

(** The block repeated in every branch but the list item's:
    [if (inList) { elements.push(<ul>...</ul>); listItems = [];
    inList = false; }]. *)
Definition closeList (st : RenderState) : RenderState :=
  if inList st then
    {| elements := elements st ++ [UL (listItems st)];
       listItems := [];
       inList := false |}
  else st.

(** [elements.push(element)] *)
Definition push (element : Element) (st : RenderState) : RenderState :=
  {| elements := elements st ++ [element];
     listItems := listItems st;
     inList := inList st |}.

(** [parts.map((part, i) => i % 2 === 1 ? <strong>{part}</strong> : part)],
    [odd] telling whether the index of the first part is odd. *)
Fixpoint renderParts (odd : bool) (parts : list (list N)) : list Inline :=
  match parts with
  | [] => []
  | part :: parts' =>
      (if odd then Strong part else Plain part) :: renderParts (negb odd) parts'
  end.

(** The body of the [forEach] callback, lines 25-75. *)
Definition renderLine (st : RenderState) (line : list N) : RenderState :=
  let trimmedLine := trim line in
  if startsWith (units "### ") trimmedLine then
    push (H3 (replaceFirst (units "### ") trimmedLine)) (closeList st)
  else if startsWith (units "## ") trimmedLine then
    push (H2 (replaceFirst (units "## ") trimmedLine)) (closeList st)
  else if startsWith (units "# ") trimmedLine then
    push (H1 (replaceFirst (units "# ") trimmedLine)) (closeList st)
  else if startsWith (units "- ") trimmedLine || startsWith (units "* ") trimmedLine then
    {| elements := elements st;
       listItems := listItems st ++ [stripBullet trimmedLine];
       inList := true |}
  else if includesBold trimmedLine then
    push (P (renderParts false (splitBold trimmedLine))) (closeList st)
  else if bool_decide (trimmedLine = []) then
    push BR (closeList st)
  else if bool_decide (0 < length trimmedLine)%nat then
    push (P [Plain trimmedLine]) (closeList st)
  else st.

(** [renderContent], lines 18-82. *)
Definition renderContent (content : list N) : list Element :=
  let st := foldl renderLine
                  {| elements := []; listItems := []; inList := false |}
                  (splitLines content) in
  if inList st && bool_decide (0 < length (listItems st))%nat
  then elements st ++ [UL (listItems st)]
  else elements st.

(** A line that the renderer treats as a list item. *)
Definition isListLine (line : list N) : bool :=
  let trimmedLine := trim line in
  negb (startsWith (units "### ") trimmedLine)
  && negb (startsWith (units "## ") trimmedLine)
  && negb (startsWith (units "# ") trimmedLine)
  && (startsWith (units "- ") trimmedLine || startsWith (units "* ") trimmedLine).

(** The number of source lines an element stands for: one per list item,
    one for every other element. *)
Definition linesOf (element : Element) : nat :=
  match element with
  | UL items => length items
  | _ => 1
  end.

(** The items of the lists of a rendering, in order. *)
Definition itemsOf (element : Element) : list (list N) :=
  match element with
  | UL items => items
  | _ => []
  end.

Definition isUL (element : Element) : bool :=
  match element with
  | UL _ => true
  | _ => false
  end.

(** No [<ul>] is directly followed by another. *)
Fixpoint noAdjacentLists (rendered : list Element) : bool :=
  match rendered with
  | a :: rest =>
      match rest with
      | b :: _ => negb (isUL a && isUL b) && noAdjacentLists rest
      | [] => true
      end
  | [] => true
  end.

(** The text of an inline child. *)
Definition inlineText (child : Inline) : list N :=
  match child with
  | Plain text => text
  | Strong text => text
  end.

(** The trimmed source line that a heading, paragraph or line break
    stands for: the heading marker put back, the paragraph's pieces
    joined by ['**']. *)
Definition sourceLine (element : Element) : option (list N) :=
  match element with
  | H1 text => Some (units "# " ++ text)
  | H2 text => Some (units "## " ++ text)
  | H3 text => Some (units "### " ++ text)
  | P children => Some (join (units "**") (map inlineText children))
  | BR => Some []
  | UL _ => None
  end.

(** The last element pushed so far is a list. *)
Definition lastIsUL (rendered : list Element) : bool :=
  match last rendered with
  | Some element => isUL element
  | None => false
  end.

(** What holds of the renderer's variables after the lines [processed]. *)
Definition renderInv (processed : list (list N)) (st : RenderState) : Prop :=
  (inList st = false → listItems st = [])
  ∧ (inList st = true → listItems st ≠ [])
  ∧ (sum_list_with linesOf (elements st) + length (listItems st) = length processed)%nat
  ∧ concat (map itemsOf (elements st)) ++ listItems st
    = map (λ line, drop 2 (trim line))
          (filter (λ line, isListLine line = true) processed)
  ∧ omap sourceLine (elements st)
    = map trim (filter (λ line, isListLine line = false) processed)
  ∧ Forall (λ element, (1 ≤ linesOf element)%nat) (elements st)
  ∧ noAdjacentLists (elements st) = true
  ∧ lastIsUL (elements st) = false.

(** ** What the page makes of a reply ([App], [handleFormSubmit])

    Both versions of [handleFormSubmit] treat the reply to the analysis
    request in the same way: an error message is shown, or the analysis
    text is parsed and displayed. *)
Inductive View :=
| ShowError (message : string)
| ShowResult (analysis : list N).

(** [response.ok] *)
Definition responseOk (status : Z) : bool :=
  bool_decide (200 ≤ status ≤ 299).

(** [data.error || fallback] *)
Definition errorOr (fallback : string) (payload : Payload) : string :=
  match payload with
  | ErrorOnly error | ErrorDetails error _ =>
      if String.eqb error "" then fallback else error
  | Success _ => fallback
  end.

(** The checks between [await response.json()] and
    [parseAnalysisOutput(data.analysis)], with the [catch] that shows
    [err.message]. *)
Definition viewOf (status : Z) (payload : Payload) : View :=
  match payload with
  | Success analysis =>
      if negb (responseOk status) then ShowError (errorOr "Analysis failed" payload)
      else if negb (present (Some analysis)) then
        ShowError "No analysis returned from server"
      else ShowResult analysis
  | _ => ShowError (errorOr "Analysis failed" payload)
  end.

(** The messages of the handler and of the page. *)
Definition fixedMessages : list string :=
  ["Method not allowed"; "Rate limit exceeded. Try again later.";
   "Missing required fields"; "Server configuration error"; "Invalid API key";
   "Analysis failed"; "No analysis returned from server"].

(** ** The regular expressions of [parseAnalysisOutput]

    The three patterns use literal characters, starred character classes
    (greedy and lazy), one capture group, a lookahead and [$], under the
    flag [i].  [matchAt] is the backtracking matcher of ECMAScript in
    continuation-passing style, for this fragment: [matchAt r s cap k]
    matches [r] at the front of the remaining input [s], with [cap] the
    value of capture group 1 so far, and hands the rest of the input to
    the continuation [k]; [None] is failure. *)
Inductive Regex :=
| Chars (literal : list N)
| Star (greedy : bool) (class : N → bool)
| Seq (r1 r2 : Regex)
| Alt (r1 r2 : Regex)
| Group (r : Regex)
| Lookahead (r : Regex)
| EndOfInput.

(** Case folding under the flag [i], for comparison with the ASCII
    characters of the patterns: [a]-[z] fold to [A]-[Z].  A code unit
    from 128 on never folds to an ASCII character, so it may stay as it
    is. *)
Definition canonicalize (c : N) : N :=
  if ((97 <=? c) && (c <=? 122))%N then (c - 32)%N else c.

(** The input starts with the literal, up to case. *)
Fixpoint startsWithFolded (literal s : list N) : bool :=
  match literal, s with
  | [], _ => true
  | a :: literal', b :: s' =>
      (canonicalize a =? canonicalize b)%N && startsWithFolded literal' s'
  | _ :: _, [] => false
  end.

(** [class*] and [class*?]: the greedy star first tries one more
    character and falls back to the continuation, the lazy star first
    tries the continuation. *)
Fixpoint star (greedy : bool) (class : N → bool) (s : list N)
    (cap : option (list N))
    (k : list N → option (list N) → option (option (list N)))
  : option (option (list N)) :=
  match s with
  | c :: s' =>
      if class c then
        if greedy then
          match star greedy class s' cap k with
          | Some result => Some result
          | None => k s cap
          end
        else
          match k s cap with
          | Some result => Some result
          | None => star greedy class s' cap k
          end
      else k s cap
  | [] => k s cap
  end.

Fixpoint matchAt (r : Regex) (s : list N) (cap : option (list N))
    (k : list N → option (list N) → option (option (list N)))
  : option (option (list N)) :=
  match r with
  | Chars literal =>
      if startsWithFolded literal s then k (drop (length literal) s) cap else None
  | Star greedy class => star greedy class s cap k
  | Seq r1 r2 => matchAt r1 s cap (λ s' cap', matchAt r2 s' cap' k)
  | Alt r1 r2 =>
      match matchAt r1 s cap k with
      | Some result => Some result
      | None => matchAt r2 s cap k
      end
  | Group r' =>
      matchAt r' s cap (λ s' _, k s' (Some (take (length s - length s') s)))
  | Lookahead r' =>
      match matchAt r' s cap (λ _ cap', Some cap') with
      | Some cap' => k s cap'
      | None => None
      end
  | EndOfInput =>
      match s with
      | [] => k s cap
      | _ :: _ => None
      end
  end.

(** [text.match(r)] for a pattern without the flag [g]: the first
    position, from the left, at which the pattern matches; the result is
    the value of capture group 1. *)
Fixpoint search (r : Regex) (s : list N) : option (option (list N)) :=
  match matchAt r s None (λ _ cap, Some cap) with
  | Some cap => Some cap
  | None =>
      match s with
      | _ :: s' => search r s'
      | [] => None
      end
  end.

(** [\s], [[^\n]] and [[\s\S]]. *)
Definition notNewline (c : N) : bool := negb (c =? 10)%N.
Definition anyChar (c : N) : bool := true.

(** [##\s*X\)], the start of the three patterns and the lookaheads. *)
Definition headerMark (letter : string) : Regex :=
  Seq (Chars (units "##"))
      (Seq (Star true isWhiteSpace) (Chars (units letter ++ units ")"))).

(** [##\s*X\)\s*<title>[^\n]*\n] *)
Definition headerLine (letter title : string) : Regex :=
  Seq (headerMark letter)
      (Seq (Star true isWhiteSpace)
           (Seq (Chars (units title))
                (Seq (Star true notNewline) (Chars [10%N])))).

(** [/##\s*A\)\s*Algorithmically Important Content[^\n]*\n([\s\S]*?)(?=##\s*B\)|$)/i] *)
Definition sectionARegex : Regex :=
  Seq (headerLine "A" "Algorithmically Important Content")
      (Seq (Group (Star false anyChar))
           (Lookahead (Alt (headerMark "B") EndOfInput))).

(** [/##\s*B\)\s*Missing or Weak Content Signals[^\n]*\n([\s\S]*?)(?=##\s*C\)|$)/i] *)
Definition sectionBRegex : Regex :=
  Seq (headerLine "B" "Missing or Weak Content Signals")
      (Seq (Group (Star false anyChar))
           (Lookahead (Alt (headerMark "C") EndOfInput))).

(** [/##\s*C\)\s*Search-Engine-Optimized Content Additions[^\n]*\n([\s\S]*?)$/i] *)
Definition sectionCRegex : Regex :=
  Seq (headerLine "C" "Search-Engine-Optimized Content Additions")
      (Seq (Group (Star false anyChar)) EndOfInput).

(** [match ? match[1].trim() : fallback]; [None] is the [TypeError] of
    calling [trim] on a group that did not take part in the match. *)
Definition sectionOf (found : option (option (list N))) (fallback : string)
  : option (list N) :=
  match found with
  | Some (Some captured) => Some (trim captured)
  | Some None => None
  | None => Some (units fallback)
  end.

Record Sections := {
  sectionA : list N;
  sectionB : list N;
  sectionC : list N
}.

(** [parseAnalysisOutput], [App], lines 219-229 (and 94-104). *)
Definition parseAnalysisOutput (text : list N) : option Sections :=
  match sectionOf (search sectionARegex text) "No content found for Section A",
        sectionOf (search sectionBRegex text) "No content found for Section B",
        sectionOf (search sectionCRegex text) "No content found for Section C" with
  | Some a, Some b, Some c => Some {| sectionA := a; sectionB := b; sectionC := c |}
  | _, _, _ => None
  end.

(** The state of the page once [handleFormSubmit] has processed a JSON
    reply to the analysis request (in the two-step version: lines 38-55,
    before the second request is sent): after the checks of [viewOf],
    [parseAnalysisOutput] is applied to the text and [setResult] stores
    the three sections with the text as [rawOutput]; an exception on the
    way is caught and its message becomes the error.  [ParseThrew] is
    the [TypeError] of [parseAnalysisOutput].  A [fetch] that rejects
    and a reply that is not JSON give no [Payload] and are not covered:
    the message shown is then the one of the runtime's exception. *)
Inductive PageState :=
| ErrorSet (message : string)
| ParseThrew
| ResultSet (sections : Sections) (rawOutput : list N).

Definition pageStateOf (status : Z) (payload : Payload) : PageState :=
  match viewOf status payload with
  | ShowError message => ErrorSet message
  | ShowResult analysis =>
      match parseAnalysisOutput analysis with
      | Some sections => ResultSet sections analysis
      | None => ParseThrew
      end
  end.

(** What [AnalysisOutput] renders of a result, lines 87-112: the three
    sections through [renderContent]; [rawOutput] is not rendered. *)
Definition renderedSections (sections : Sections) : list (list Element) :=
  [renderContent (sectionA sections); renderContent (sectionB sections);
   renderContent (sectionC sections)].

(** The final [if] of [renderContent], lines 79-82, and what it returns. *)
Definition finishList (st : RenderState) : list Element :=
  if inList st && bool_decide (0 < length (listItems st))%nat
  then elements st ++ [UL (listItems st)]
  else elements st.

(** [renderContent] on the lines that [content.split] gives: the loop
    and the final [if]. *)
Definition renderLines (lines : list (list N)) : list Element :=
  finishList (foldl renderLine
                    {| elements := []; listItems := []; inList := false |}
                    lines).

(** The state with [rendered] put before its elements. *)
Definition withPrefix (rendered : list Element) (st : RenderState) : RenderState :=
  {| elements := rendered ++ elements st;
     listItems := listItems st;
     inList := inList st |}.

(** [s.includes(pat)] *)
Fixpoint includes (pat s : list N) : bool :=
  startsWith pat s
  || match s with
     | _ :: s' => includes pat s'
     | [] => false
     end.

(** A section header written as the prompt asks for it:
    [## <letter>) <title>]. *)
Definition headerText (letter title : string) : list N :=
  units "##" ++ [32%N] ++ (units letter ++ units ")") ++ [32%N] ++ units title.

(** ** Tests of the model on concrete inputs *)

Example first_call_admits :
  checkRateLimit 1000 "10.0.0.1" ∅ = (true, {[ "10.0.0.1" := [1000] ]}).
Proof. vm_compute. reflexivity. Qed.

Example scenario_quota2 :
  run (limiter 2 1000) [(0, "a"); (100, "a"); (200, "a"); (1001, "a")] ∅
  = ([true; true; false; true], {[ "a" := [100; 1001] ]}).
Proof. vm_compute. reflexivity. Qed.

Example clientIp_missing : clientIp None None = "unknown".
Proof. reflexivity. Qed.

Example clientIp_empty_header : clientIp (Some "") (Some "10.0.0.7") = "10.0.0.7".
Proof. reflexivity. Qed.

Example trim_strips_both_ends :
  trim ([0xFEFF; 32; 9]%N ++ units "a b" ++ [0xA0; 13; 10]%N) = units "a b".
Proof. vm_compute. reflexivity. Qed.

Example splitBold_odd_stars : splitBold (units "a***b") = [units "a"; units "*b"].
Proof. vm_compute. reflexivity. Qed.

Example headerText_A :
  headerText "A" "Algorithmically Important Content"
  = units "## A) Algorithmically Important Content".
Proof. vm_compute. reflexivity. Qed.

Example render_sample :
  renderContent (units "## Title" ++ [10%N] ++ units "- one" ++ [10%N]
                 ++ units "* two" ++ [10%N] ++ [10%N] ++ units "x **y** z" ++ [10%N]
                 ++ units "#### deep")
  = [H2 (units "Title"); UL [units "one"; units "two"]; BR;
     P [Plain (units "x "); Strong (units "y"); Plain (units " z")];
     P [Plain (units "#### deep")]].
Proof. vm_compute. reflexivity. Qed.

Example parse_header_without_newline :
  parseAnalysisOutput (units "## A) Algorithmically Important Content")
  = Some {| sectionA := units "No content found for Section A";
            sectionB := units "No content found for Section B";
            sectionC := units "No content found for Section C" |}.
Proof. vm_compute. reflexivity. Qed.

Example parse_is_case_insensitive :
  parseAnalysisOutput (units "##a)algorithmically important content!" ++ [10%N]
                       ++ units " body " ++ [10%N] ++ units "##  b) x")
  = Some {| sectionA := units "body";
            sectionB := units "No content found for Section B";
            sectionC := units "No content found for Section C" |}.
Proof. vm_compute. reflexivity. Qed.

(** ** Basic facts about one call *)

Lemma checkRateLimit_limiter now ip requestLog :
  checkRateLimit now ip requestLog
  = limiter MAX_REQUESTS_PER_HOUR 3600000 now ip requestLog.
Proof. reflexivity. Qed.

Lemma run_ext step1 step2 calls requestLog :
  (∀ now ip m, step1 now ip m = step2 now ip m) →
  run step1 calls requestLog = run step2 calls requestLog.
Proof.
  intros Hext. revert requestLog.
  induction calls as [|[now ip] rest IH]; intros m; simpl; [done|].
  rewrite Hext. destruct (step2 now ip m) as [ok m'].
  by rewrite IH.
Qed.

Lemma run_checkRateLimit calls requestLog :
  run checkRateLimit calls requestLog
  = run (limiter MAX_REQUESTS_PER_HOUR 3600000) calls requestLog.
Proof. apply run_ext. intros. apply checkRateLimit_limiter. Qed.

Lemma run_cons step now ip rest requestLog :
  run step ((now, ip) :: rest) requestLog
  = ((step now ip requestLog).1 :: (run step rest (step now ip requestLog).2).1,
     (run step rest (step now ip requestLog).2).2).
Proof.
  simpl. destruct (step now ip requestLog) as [ok m']; simpl.
  by destruct (run step rest m').
Qed.

Lemma run_length step calls requestLog :
  length (run step calls requestLog).1 = length calls.
Proof.
  revert requestLog. induction calls as [|[now ip] rest IH]; intros m; [done|].
  rewrite run_cons. simpl. by rewrite IH.
Qed.

Lemma requestsOf_insert requestLog ip l :
  requestsOf (<[ip := l]> requestLog) ip = l.
Proof. unfold requestsOf. by rewrite lookup_insert_eq. Qed.

Lemma requestsOf_insert_ne requestLog ip ip' l :
  ip ≠ ip' → requestsOf (<[ip := l]> requestLog) ip' = requestsOf requestLog ip'.
Proof. intros Hne. unfold requestsOf. by rewrite lookup_insert_ne. Qed.

Lemma requestsOf_empty ip : requestsOf ∅ ip = [].
Proof. unfold requestsOf. by rewrite lookup_empty. Qed.

Section Limiter.
Variables (quota : nat) (w : Z).

Lemma limiter_unfold now ip m :
  limiter quota w now ip m
  = if bool_decide (quota ≤ length (retainedAt w now (requestsOf m ip)))%nat
    then (false, m)
    else (true, <[ip := retainedAt w now (requestsOf m ip) ++ [now]]> m).
Proof. reflexivity. Qed.

Lemma limiter_admit_iff now ip m :
  (limiter quota w now ip m).1 = true
  ↔ (length (retainedAt w now (requestsOf m ip)) < quota)%nat.
Proof.
  rewrite limiter_unfold. case_bool_decide; simpl; split; intros; (done || lia).
Qed.

Lemma limiter_reject_iff now ip m :
  (limiter quota w now ip m).1 = false
  ↔ (quota ≤ length (retainedAt w now (requestsOf m ip)))%nat.
Proof.
  rewrite limiter_unfold. case_bool_decide; simpl; split; intros; (done || lia).
Qed.

Lemma limiter_reject_state now ip m :
  (limiter quota w now ip m).1 = false → (limiter quota w now ip m).2 = m.
Proof. rewrite limiter_unfold. by case_bool_decide. Qed.

Lemma limiter_admit_state now ip m :
  (limiter quota w now ip m).1 = true →
  (limiter quota w now ip m).2
  = <[ip := retainedAt w now (requestsOf m ip) ++ [now]]> m.
Proof. rewrite limiter_unfold. by case_bool_decide. Qed.

Lemma limiter_frame now ip ip' m :
  ip ≠ ip' → (limiter quota w now ip m).2 !! ip' = m !! ip'.
Proof.
  intros Hne. rewrite limiter_unfold. case_bool_decide; simpl; [done|].
  by rewrite lookup_insert_ne.
Qed.

(** The decision and the new history of the key depend on the map
    only through the history stored under the key. *)
Lemma limiter_rename now a b m1 m2 :
  m1 !! a = m2 !! b →
  (limiter quota w now a m1).1 = (limiter quota w now b m2).1
  ∧ (limiter quota w now a m1).2 !! a = (limiter quota w now b m2).2 !! b.
Proof.
  intros Heq. rewrite !limiter_unfold. unfold requestsOf. rewrite Heq.
  case_bool_decide; simpl; [done|].
  by rewrite !lookup_insert_eq.
Qed.

End Limiter.

(** ** The stored sequences stay within the quota and within the window *)

Lemma filter_length_id {A} (P : A → Prop) `{!∀ x, Decision (P x)} (l : list A) :
  length (filter P l) = length l → filter P l = l.
Proof.
  induction l as [|x l IH]; [done|].
  rewrite filter_cons. destruct (decide (P x)) as [HP|HP]; simpl.
  - intros [= Hlen]. by rewrite IH.
  - intros Hlen. pose proof (length_filter P l). lia.
Qed.

Lemma filter_length_split {A} (P : A → Prop) `{!∀ x, Decision (P x)} (l : list A) :
  (length (filter P l) + length (filter (λ x, ¬ P x) l) = length l)%nat.
Proof.
  induction l as [|x l IH]; [done|].
  rewrite !filter_cons.
  destruct (decide (P x)); destruct (decide (¬ P x)); simpl; (done || lia).
Qed.

Lemma bounded_empty quota : bounded quota ∅.
Proof. intros ip. rewrite requestsOf_empty. simpl. lia. Qed.

Section Invariants.
Variables (quota : nat) (w : Z).

Lemma retainedAt_elem now l t : t ∈ retainedAt w now l ↔ now - w < t ∧ t ∈ l.
Proof. unfold retainedAt. rewrite list_elem_of_filter. intuition lia. Qed.

Lemma retainedAt_length now l : (length (retainedAt w now l) ≤ length l)%nat.
Proof. apply length_filter. Qed.

Lemma retained_expired_length now l :
  (length (retainedAt w now l) + length (expired w now l) = length l)%nat.
Proof.
  unfold retainedAt, expired.
  rewrite <- (filter_length_split (λ t, t > now - w) l). f_equal. f_equal.
  apply list_filter_iff. intros t. lia.
Qed.

Lemma bounded_step now ip m :
  bounded quota m → bounded quota (limiter quota w now ip m).2.
Proof.
  intros Hb ip'. rewrite limiter_unfold. case_bool_decide; simpl; [apply Hb|].
  destruct (decide (ip = ip')) as [<-|Hne].
  - rewrite requestsOf_insert, length_app. simpl. lia.
  - rewrite requestsOf_insert_ne by done. apply Hb.
Qed.

Lemma bounded_run calls m :
  bounded quota m → bounded quota (run (limiter quota w) calls m).2.
Proof.
  revert m. induction calls as [|[now ip] rest IH]; intros m Hb; [done|].
  rewrite run_cons. simpl. apply IH. by apply bounded_step.
Qed.

(** In a bounded map a rejection can only happen when nothing is stale:
    the filter kept [quota] entries out of at most [quota]. *)
Lemma reject_nothing_stale now ip m :
  bounded quota m →
  (limiter quota w now ip m).1 = false →
  retainedAt w now (requestsOf m ip) = requestsOf m ip.
Proof.
  intros Hb Hrej. apply limiter_reject_iff in Hrej.
  apply filter_length_id.
  pose proof (retainedAt_length now (requestsOf m ip)) as Hle.
  specialize (Hb ip). unfold retainedAt in *. lia.
Qed.

Lemma fresh_after_call now ip m :
  0 < w → bounded quota m →
  Forall (λ t, now - w < t) (requestsOf (limiter quota w now ip m).2 ip).
Proof.
  intros Hw Hb. apply Forall_forall. intros t Ht.
  destruct (limiter quota w now ip m).1 eqn:Hok.
  - rewrite limiter_admit_state, requestsOf_insert in Ht by done.
    apply elem_of_app in Ht as [Ht|Ht].
    + by apply retainedAt_elem in Ht as [? _].
    + apply list_elem_of_singleton in Ht as ->. lia.
  - rewrite limiter_reject_state in Ht by done.
    rewrite <- (reject_nothing_stale now ip m) in Ht by done.
    by apply retainedAt_elem in Ht as [? _].
Qed.

(** A stored timestamp that has left the window frees a slot. *)
Lemma expired_entry_admits now ip m t :
  bounded quota m → t ∈ requestsOf m ip → t ≤ now - w →
  (limiter quota w now ip m).1 = true.
Proof.
  intros Hb Ht Hold. apply limiter_admit_iff.
  assert (length (retainedAt w now (requestsOf m ip))
          < length (requestsOf m ip))%nat as Hlt.
  { apply (length_filter_lt _ _ t); [done|lia]. }
  specialize (Hb ip). lia.
Qed.

End Invariants.

Lemma retainedAt_none w now l :
  Forall (λ t, t ≤ now - w) l → retainedAt w now l = [].
Proof.
  unfold retainedAt. induction 1 as [|x l Hx _ IH]; [done|].
  rewrite filter_cons_False by lia. exact IH.
Qed.

Lemma oldest_elem l t : oldest l = Some t → t ∈ l.
Proof.
  revert t. induction l as [|x l IH]; intros t; simpl; [done|].
  destruct (oldest l) as [t'|]; intros [= <-].
  - destruct (Z.min_spec x t') as [[_ ->]|[_ ->]].
    + apply list_elem_of_here.
    + apply list_elem_of_further. by apply IH.
  - apply list_elem_of_here.
Qed.

Lemma oldest_least l t : oldest l = Some t → Forall (λ t', t ≤ t') l.
Proof.
  revert t. induction l as [|x l IH]; intros t; simpl; [done|].
  destruct (oldest l) as [t'|] eqn:Hl; intros [= <-].
  - constructor; [lia|].
    eapply Forall_impl; [by apply IH|]. simpl. intros; lia.
  - constructor; [lia|]. destruct l; [done|discriminate].
Qed.

(** ** Calls repeated at one clock value *)

Lemma filter_Forall_id {A} (P : A → Prop) `{!∀ x, Decision (P x)} (l : list A) :
  Forall P l → filter P l = l.
Proof.
  induction 1 as [|x l HP _ IH]; [done|].
  by rewrite filter_cons_True, IH.
Qed.

Section SameTime.
Variables (quota : nat) (w : Z).
Hypothesis w_pos : 0 < w.

Lemma retainedAt_idem now l :
  retainedAt w now (retainedAt w now l) = retainedAt w now l.
Proof.
  apply filter_Forall_id, Forall_forall. intros t Ht.
  apply retainedAt_elem in Ht. lia.
Qed.

Lemma retainedAt_snoc_now now l :
  retainedAt w now (l ++ [now]) = retainedAt w now l ++ [now].
Proof.
  unfold retainedAt. rewrite filter_app. f_equal.
  apply filter_Forall_id. constructor; [lia|done].
Qed.

(** An admission at [now] raises the in-window count at [now] by one. *)
Lemma count_after_admit now ip m :
  (limiter quota w now ip m).1 = true →
  length (retainedAt w now (requestsOf (limiter quota w now ip m).2 ip))
  = S (length (retainedAt w now (requestsOf m ip))).
Proof.
  intros Hok. rewrite limiter_admit_state, requestsOf_insert by done.
  rewrite retainedAt_snoc_now, retainedAt_idem, length_app. simpl. lia.
Qed.

(** The decisions of [k] calls at one clock value: as many admissions
    as there are free slots, then rejections only. *)
Lemma same_time_results now ip k m :
  (run (limiter quota w) (replicate k (now, ip)) m).1
  = replicate (k `min` (quota - length (retainedAt w now (requestsOf m ip)))) true
    ++ replicate (k - (quota - length (retainedAt w now (requestsOf m ip)))) false.
Proof.
  revert m. induction k as [|k IH]; intros m; [done|].
  rewrite replicate_S, run_cons. cbn [fst]. rewrite IH.
  destruct (limiter quota w now ip m).1 eqn:Hok.
  - rewrite count_after_admit by done.
    apply limiter_admit_iff in Hok.
    set (c := length (retainedAt w now (requestsOf m ip))) in *.
    replace (S k `min` (quota - c))%nat with (S (k `min` (quota - S c)))%nat by lia.
    replace (S k - (quota - c))%nat with (k - (quota - S c))%nat by lia.
    done.
  - rewrite limiter_reject_state by done.
    apply limiter_reject_iff in Hok.
    set (c := length (retainedAt w now (requestsOf m ip))) in *.
    replace (quota - c)%nat with 0%nat by lia.
    rewrite !Nat.min_0_r, !Nat.sub_0_r. done.
Qed.

(** Once a call is rejected, any number of further calls at the same
    clock value are rejected and leave the map untouched. *)
Lemma rejected_forever now ip n m :
  (limiter quota w now ip m).1 = false →
  run (limiter quota w) (replicate n (now, ip)) m = (replicate n false, m).
Proof.
  intros Hrej. induction n as [|n IH]; [done|].
  rewrite replicate_S, run_cons, Hrej, limiter_reject_state by done.
  by rewrite IH.
Qed.

(** If [k] calls at one clock value were all admitted, the in-window
    count grew by [k]. *)
Lemma all_admitted_count now ip k m :
  (run (limiter quota w) (replicate k (now, ip)) m).1 = replicate k true →
  length (retainedAt w now
            (requestsOf (run (limiter quota w) (replicate k (now, ip)) m).2 ip))
  = (length (retainedAt w now (requestsOf m ip)) + k)%nat.
Proof.
  revert m. induction k as [|k IH]; intros m; [simpl; lia|].
  rewrite !replicate_S, run_cons. cbn [fst snd]. intros [= Hok Hrest].
  rewrite IH, count_after_admit by done. lia.
Qed.

(** The stored sequence of an identity that only ever called at [now]. *)
Lemma same_time_state now ip k j m :
  requestsOf m ip = replicate j now → (j + k ≤ quota)%nat →
  requestsOf (run (limiter quota w) (replicate k (now, ip)) m).2 ip
  = replicate (j + k) now.
Proof.
  revert j m. induction k as [|k IH]; intros j m Hm Hle.
  - by rewrite Nat.add_0_r.
  - rewrite replicate_S, run_cons. cbn [snd].
    assert (retainedAt w now (requestsOf m ip) = replicate j now) as Hret.
    { rewrite Hm. apply filter_Forall_id, Forall_replicate. lia. }
    assert ((limiter quota w now ip m).1 = true) as Hok.
    { apply limiter_admit_iff. rewrite Hret, length_replicate. lia. }
    rewrite (IH (S j)); [f_equal; lia| |lia].
    rewrite limiter_admit_state, requestsOf_insert, Hret by done.
    by rewrite <- replicate_S_end.
Qed.

End SameTime.

(** ** Calls for one identity do not disturb another *)

Section Independence.
Variables (quota : nat) (w : Z).

Lemma run_frame (times : list Z) ip ip' m :
  ip ≠ ip' →
  (run (limiter quota w) (map (λ t, (t, ip)) times) m).2 !! ip' = m !! ip'.
Proof.
  intros Hne. revert m. induction times as [|t times IH]; intros m; [done|].
  cbn [map]. rewrite run_cons. cbn [snd]. rewrite IH.
  by apply limiter_frame.
Qed.

(** The history of [ip] after a run depends only on the calls made
    for [ip]. *)
Lemma run_project calls ip m1 m2 :
  m1 !! ip = m2 !! ip →
  (run (limiter quota w) calls m1).2 !! ip
  = (run (limiter quota w) (filter (λ c, c.2 = ip) calls) m2).2 !! ip.
Proof.
  revert m1 m2. induction calls as [|[now ip'] rest IH]; intros m1 m2 Heq; [done|].
  rewrite run_cons. cbn [snd]. rewrite filter_cons. cbn [snd].
  destruct (decide (ip' = ip)) as [->|Hne].
  - rewrite run_cons. cbn [snd]. apply IH.
    by apply limiter_rename.
  - apply IH. rewrite limiter_frame by done. done.
Qed.

End Independence.

(** ** The sliding-window bound on the admitted requests

    The map only remembers what the last pruning kept.  [tracks] ties
    it to the full list [admitted] of the timestamps admitted so far for
    one identity: above every cutoff that a later call can use, the map
    and the full list agree. *)

Lemma filter_length_mono {A} (P Q : A → Prop)
    `{!∀ x, Decision (P x)} `{!∀ x, Decision (Q x)} (l : list A) :
  (∀ x, P x → Q x) → (length (filter P l) ≤ length (filter Q l))%nat.
Proof.
  intros HPQ. induction l as [|x l IH]; [done|].
  rewrite !filter_cons.
  destruct (decide (P x)) as [HP|HP]; destruct (decide (Q x)) as [HQ|HQ];
    simpl; try lia.
  by destruct HQ; apply HPQ.
Qed.

Lemma filter_above_above (c c' : Z) (l : list Z) :
  c' ≤ c →
  filter (λ t, t > c) (filter (λ t, t > c') l) = filter (λ t, t > c) l.
Proof.
  intros Hle. rewrite list_filter_filter. apply list_filter_iff. intros t. lia.
Qed.

Section SlidingWindow.
Variables (quota : nat) (w : Z).

Lemma tracks_empty last ip : tracks quota w last ∅ [] ip.
Proof.
  split.
  - intros c _. by rewrite requestsOf_empty.
  - intros now. unfold windowCount. simpl. lia.
Qed.

Lemma tracks_later last last' m admitted ip :
  last ≤ last' → tracks quota w last m admitted ip → tracks quota w last' m admitted ip.
Proof. intros Hle [Hagree Hcount]. split; [|done]. intros c Hc. apply Hagree. lia. Qed.

Lemma tracks_other last now ip ip' m admitted :
  ip' ≠ ip → tracks quota w last m admitted ip →
  tracks quota w last (limiter quota w now ip' m).2 admitted ip.
Proof.
  intros Hne [Hagree Hcount]. split; [|done]. intros c Hc.
  unfold requestsOf. rewrite limiter_frame by done. by apply Hagree.
Qed.

Lemma tracks_reject last now ip m admitted :
  (limiter quota w now ip m).1 = false → tracks quota w last m admitted ip →
  tracks quota w last (limiter quota w now ip m).2 admitted ip.
Proof. intros Hrej Htr. by rewrite limiter_reject_state. Qed.

Lemma tracks_admit last now ip m admitted :
  last ≤ now →
  (limiter quota w now ip m).1 = true → tracks quota w last m admitted ip →
  tracks quota w now (limiter quota w now ip m).2 (admitted ++ [now]) ip.
Proof.
  intros Hle Hok [Hagree Hcount]. split.
  - intros c Hc. rewrite limiter_admit_state, requestsOf_insert by done.
    rewrite !filter_app. f_equal. unfold retainedAt.
    rewrite filter_above_above by done. apply Hagree. lia.
  - intros at_. unfold windowCount. rewrite filter_app, length_app.
    destruct (decide (now ≤ at_)) as [Hge|Hlt].
    + apply limiter_admit_iff in Hok.
      unfold retainedAt in Hok. rewrite (Hagree (now - w)) in Hok by lia.
      pose proof (filter_length_mono
                    (λ t, at_ - w < t ∧ t ≤ at_) (λ t, t > now - w) admitted) as Hm.
      pose proof (length_filter (λ t, at_ - w < t ∧ t ≤ at_) [now]) as H1.
      simpl in H1. specialize (Hm ltac:(simpl; intros; lia)). lia.
    + rewrite filter_cons_False by (simpl; lia). simpl.
      specialize (Hcount at_). unfold windowCount in Hcount. lia.
Qed.

Lemma window_bound_from last m admitted ip calls :
  tracks quota w last m admitted ip →
  nondecreasingFrom last (map fst calls) = true →
  ∀ now,
    (windowCount w now
       (admitted ++ admittedTimes ip calls (run (limiter quota w) calls m).1)
     ≤ quota)%nat.
Proof.
  revert last m admitted.
  induction calls as [|[t ip'] rest IH]; intros last m admitted Htr Hmono now.
  - simpl. rewrite app_nil_r. apply Htr.
  - cbn [map fst nondecreasingFrom] in Hmono.
    apply andb_prop in Hmono as [Hle Hmono]. apply bool_decide_eq_true in Hle.
    rewrite run_cons. cbn [fst admittedTimes].
    destruct (limiter quota w t ip' m).1 eqn:Hok;
      destruct (decide (ip' = ip)) as [->|Hne].
    + rewrite bool_decide_eq_true_2 by done. cbn [andb].
      rewrite (cons_middle t), app_assoc.
      apply (IH t); [|done]. by apply (tracks_admit last).
    + rewrite bool_decide_eq_false_2 by done. cbn [andb].
      apply (IH t); [|done].
      apply tracks_other; [done|]. by apply (tracks_later last).
    + cbn [andb].
      apply (IH t); [|done].
      apply tracks_reject; [done|]. by apply (tracks_later last).
    + cbn [andb].
      apply (IH t); [|done].
      apply tracks_other; [done|]. by apply (tracks_later last).
Qed.

Lemma window_bound calls ip now :
  nondecreasing (map fst calls) = true →
  (windowCount w now (admittedTimes ip calls (run (limiter quota w) calls ∅).1)
   ≤ quota)%nat.
Proof.
  intros Hmono. destruct calls as [|[t ip'] rest].
  - unfold windowCount. simpl. lia.
  - apply (window_bound_from t ∅ [] ip ((t, ip') :: rest)); [apply tracks_empty|].
    cbn [map fst nondecreasingFrom]. cbn [map fst nondecreasing] in Hmono.
    rewrite Hmono. rewrite bool_decide_eq_true_2 by lia. done.
Qed.

End SlidingWindow.

(** ** The code against the specification's five steps *)

Lemma retainedAt_spec_filter w now l :
  filter (λ t, ¬ t ≤ now - w) l = retainedAt w now l.
Proof. unfold retainedAt. apply list_filter_iff. intros t. lia. Qed.

Lemma limiter_refines_spec quota w now ip m :
  specCheck quota w now ip m (limiter quota w now ip m).1 (limiter quota w now ip m).2.
Proof.
  rewrite limiter_unfold. case_bool_decide as Hq; simpl.
  - eapply spec_reject; [reflexivity|].
    fold (requestsOf m ip). rewrite retainedAt_spec_filter. lia.
  - rewrite <- retainedAt_spec_filter.
    eapply spec_admit; [reflexivity|].
    fold (requestsOf m ip). rewrite retainedAt_spec_filter. lia.
Qed.

Lemma specCheck_functional quota w now ip m ok1 ok2 m1 m2 :
  specCheck quota w now ip m ok1 m1 → specCheck quota w now ip m ok2 m2 →
  ok1 = ok2 ∧ m1 = m2.
Proof.
  intros H1 H2. destruct H1 as [r1 -> Hr1|r1 -> Hr1]; destruct H2 as [r2 -> Hr2|r2 -> Hr2];
    (done || lia).
Qed.

(** ** Renaming the key of a run *)

Lemma run_rename quota w (times : list Z) a b m1 m2 :
  m1 !! a = m2 !! b →
  (run (limiter quota w) (map (λ t, (t, a)) times) m1).1
  = (run (limiter quota w) (map (λ t, (t, b)) times) m2).1
  ∧ (run (limiter quota w) (map (λ t, (t, a)) times) m1).2 !! a
    = (run (limiter quota w) (map (λ t, (t, b)) times) m2).2 !! b.
Proof.
  revert m1 m2. induction times as [|t times IH]; intros m1 m2 Heq; [done|].
  cbn [map]. rewrite !run_cons. cbn [fst snd].
  destruct (limiter_rename quota w t a b m1 m2 Heq) as [Hok Hst].
  destruct (IH _ _ Hst) as [IH1 IH2]. by rewrite Hok, IH1.
Qed.

(** ** The caller's identity (handler, line 44) *)

Lemma clientIp_never_empty forwardedFor remoteAddress :
  clientIp forwardedFor remoteAddress ≠ "".
Proof.
  unfold clientIp.
  destruct forwardedFor as [f|]; destruct remoteAddress as [r|]; simpl;
    repeat match goal with
           | |- context [String.eqb ?s ""] =>
               let E := fresh in destruct (String.eqb_spec s "") as [E|E]; simpl
           end; done.
Qed.

(** ** The properties of the specification *)

(** C1.  For an identity without stored history, calls repeated at one
    clock value are decided as follows: the first
    [MAX_REQUESTS_PER_HOUR] (20) are admitted and every later one is
    rejected; in particular the very first call is admitted and the
    21st is rejected. *)
Theorem quota_then_reject (now : Z) (ip : string) (requestLog : gmap string (list Z)) :
  requestLog !! ip = None →
  (checkRateLimit now ip requestLog).1 = true
  ∧ (run checkRateLimit (replicate (S MAX_REQUESTS_PER_HOUR) (now, ip)) requestLog).1
    = replicate MAX_REQUESTS_PER_HOUR true ++ [false]
  ∧ ∀ n, (run checkRateLimit (replicate n (now, ip)) requestLog).1
         = replicate (n `min` MAX_REQUESTS_PER_HOUR) true
           ++ replicate (n - MAX_REQUESTS_PER_HOUR) false.
Proof.
  intros Hnone.
  assert (∀ n, (run checkRateLimit (replicate n (now, ip)) requestLog).1
               = replicate (n `min` MAX_REQUESTS_PER_HOUR) true
                 ++ replicate (n - MAX_REQUESTS_PER_HOUR) false) as Hall.
  { intros n. rewrite run_checkRateLimit, same_time_results by lia.
    unfold requestsOf. rewrite Hnone. reflexivity. }
  split; [|split; [apply (Hall (S MAX_REQUESTS_PER_HOUR))|exact Hall]].
  rewrite checkRateLimit_limiter. apply limiter_admit_iff.
  unfold requestsOf. rewrite Hnone. simpl. unfold MAX_REQUESTS_PER_HOUR. lia.
Qed.

Lemma quota_then_reject_witness :
  (∅ : gmap string (list Z)) !! "203.0.113.9" = None
  ∧ (run checkRateLimit (replicate 21 (1700000000000, "203.0.113.9")) ∅).1
    = replicate 20 true ++ [false].
Proof.
  split; [reflexivity|].
  apply (quota_then_reject 1700000000000 "203.0.113.9" ∅). reflexivity.
Defined.

(** C2.  A rejected call returns the map it was given, unchanged.  Hence
    after 20 admitted calls at one clock value, any number [n] of further
    calls at that value are all rejected and leave the map exactly as it
    was after the 20th admission, and one more check is rejected too. *)
Theorem reject_leaves_state (now : Z) (ip : string) (requestLog : gmap string (list Z)) :
  ((checkRateLimit now ip requestLog).1 = false →
   (checkRateLimit now ip requestLog).2 = requestLog)
  ∧ ∀ n,
      let after := run checkRateLimit (replicate MAX_REQUESTS_PER_HOUR (now, ip)) requestLog in
      after.1 = replicate MAX_REQUESTS_PER_HOUR true →
      run checkRateLimit (replicate n (now, ip)) after.2 = (replicate n false, after.2)
      ∧ checkRateLimit now ip (run checkRateLimit (replicate n (now, ip)) after.2).2
        = (false, after.2).
Proof.
  split.
  - rewrite checkRateLimit_limiter. apply limiter_reject_state.
  - intros n after Hadm. subst after.
    rewrite run_checkRateLimit in Hadm.
    pose proof (all_admitted_count MAX_REQUESTS_PER_HOUR 3600000 ltac:(lia)
                  now ip _ requestLog Hadm) as Hcount.
    rewrite <- run_checkRateLimit in Hcount.
    set (m := (run checkRateLimit (replicate MAX_REQUESTS_PER_HOUR (now, ip)) requestLog).2) in *.
    assert ((limiter MAX_REQUESTS_PER_HOUR 3600000 now ip m).1 = false) as Hrej.
    { apply limiter_reject_iff. lia. }
    rewrite run_checkRateLimit, rejected_forever by done. cbn [snd].
    split; [done|].
    rewrite checkRateLimit_limiter, (surjective_pairing (limiter _ _ _ _ _)).
    by rewrite Hrej, limiter_reject_state.
Qed.

Lemma reject_leaves_state_witness :
  let after := run checkRateLimit (replicate 20 (1000, "198.51.100.4")) ∅ in
  after.1 = replicate 20 true
  ∧ (checkRateLimit 1000 "198.51.100.4" after.2).1 = false
  ∧ (checkRateLimit 1000 "198.51.100.4" after.2).2 = after.2
  ∧ run checkRateLimit (replicate 5 (1000, "198.51.100.4")) after.2
    = (replicate 5 false, after.2).
Proof.
  intros after.
  assert (after.1 = replicate 20 true) as Hadm by (vm_compute; reflexivity).
  assert ((checkRateLimit 1000 "198.51.100.4" after.2).1 = false) as Hrej
    by (vm_compute; reflexivity).
  split; [exact Hadm|]. split; [exact Hrej|]. split.
  - exact (proj1 (reject_leaves_state 1000 "198.51.100.4" after.2) Hrej).
  - exact (proj1 (proj2 (reject_leaves_state 1000 "198.51.100.4" ∅) 5%nat Hadm)).
Defined.

(** C3.  In every map reachable from the empty one, right after a call
    for an identity at time [now], admitted or rejected, the sequence
    stored for that identity holds no timestamp that is
    [<= now - 3600000]. *)
Theorem no_stale_after_check (calls : list (Z * string)) (now : Z) (ip : string) :
  let requestLog := (run checkRateLimit calls ∅).2 in
  Forall (λ t, ¬ t ≤ now - 3600000)
         (requestsOf (checkRateLimit now ip requestLog).2 ip).
Proof.
  intros requestLog. subst requestLog.
  rewrite run_checkRateLimit, checkRateLimit_limiter.
  eapply Forall_impl.
  - apply fresh_after_call; [lia|]. apply bounded_run, bounded_empty.
  - simpl. intros; lia.
Qed.

(** C4.  When the clock never goes backwards, at every instant [now] and
    for every identity, at most [MAX_REQUESTS_PER_HOUR] (20) of the
    requests admitted so far lie in the trailing window
    [(now - 3600000, now]]; and the stored sequence never holds more than
    20 timestamps greater than [now - 3600000]. *)
Theorem sliding_window_bound (calls : list (Z * string)) :
  nondecreasing (map fst calls) = true →
  ∀ ip now,
    (windowCount 3600000 now
       (admittedTimes ip calls (run checkRateLimit calls ∅).1)
     ≤ MAX_REQUESTS_PER_HOUR)%nat
    ∧ (length (retainedAt 3600000 now (requestsOf (run checkRateLimit calls ∅).2 ip))
       ≤ MAX_REQUESTS_PER_HOUR)%nat.
Proof.
  intros Hmono ip now. rewrite run_checkRateLimit. split.
  - by apply window_bound.
  - etrans; [apply retainedAt_length|].
    apply bounded_run, bounded_empty.
Qed.

Lemma sliding_window_bound_witness :
  let calls := replicate 25 (0, "192.0.2.1") ++ [(3599999, "192.0.2.1"); (3600000, "192.0.2.1")] in
  nondecreasing (map fst calls) = true
  ∧ (windowCount 3600000 3600000
       (admittedTimes "192.0.2.1" calls (run checkRateLimit calls ∅).1)
     ≤ MAX_REQUESTS_PER_HOUR)%nat.
Proof.
  intros calls.
  assert (nondecreasing (map fst calls) = true) as Hmono by (vm_compute; reflexivity).
  split; [exact Hmono|].
  exact (proj1 (sliding_window_bound calls Hmono "192.0.2.1" 3600000)).
Defined.

(** C5, the scenario as the specification lists it.  The quota and
    the window of [checkRateLimit] are the constants 20 and
    [60 * 60 * 1000]; nothing sets them to 2 and 1000 ms.  Of the calls
    at 0, 100, 200 and 1001 the code admits all four: the call at 200 is
    not rejected, and at 1001 nothing has expired, the retained history
    being [[0; 100; 200]] and not [[100]]. *)
Lemma listed_scenario_all_admitted :
  (run checkRateLimit [(0, "a"); (100, "a"); (200, "a"); (1001, "a")] ∅).1
  = [true; true; true; true]
  ∧ (run checkRateLimit [(0, "a"); (100, "a"); (200, "a"); (1001, "a")] ∅).1
    ≠ [true; true; false; true]
  ∧ retainedAt 3600000 1001
      (requestsOf (run checkRateLimit [(0, "a"); (100, "a"); (200, "a")] ∅).2 "a")
    = [0; 100; 200]
  ∧ retainedAt 3600000 1001
      (requestsOf (run checkRateLimit [(0, "a"); (100, "a"); (200, "a")] ∅).2 "a")
    ≠ [100].
Proof.
  split; [vm_compute; reflexivity|].
  split; [intros Hlisted; vm_compute in Hlisted; discriminate Hlisted|].
  split; [vm_compute; reflexivity|].
  intros Hlisted; vm_compute in Hlisted; discriminate Hlisted.
Qed.

(** C5.  Expiry frees exactly one admission slot per expired timestamp,
    at the quota (20) and the window (3 600 000 ms) that the code
    fixes.  In every reachable map and for every identity and clock
    value [now]: pruning removes exactly the expired timestamps; the
    call is admitted exactly when the stored length is below the quota
    plus the number [freed] of expired timestamps; of [n] calls made at
    [now] the first [20 + freed - length stored] are admitted and all
    later ones rejected, so an identity that has exhausted its quota
    gets exactly [freed] admissions; and once the clock has passed the
    oldest stored timestamp by more than the window, the next call is
    admitted.  The scenario at the code's constants: one call at 0 and
    nineteen at 100 are admitted, the call at 200 is rejected, and the
    call at 3 600 001 is admitted, with retained history nineteen times
    100 before 3 600 001 is appended. *)
Theorem expiry_frees_slots :
  (∀ calls now ip,
     let requestLog := (run checkRateLimit calls ∅).2 in
     let stored := requestsOf requestLog ip in
     let freed := length (expired 3600000 now stored) in
     (length (retainedAt 3600000 now stored) + freed = length stored)%nat
     ∧ ((checkRateLimit now ip requestLog).1 = true
        ↔ (length stored < MAX_REQUESTS_PER_HOUR + freed)%nat)
     ∧ (∀ n : nat,
          (run checkRateLimit (replicate n (now, ip)) requestLog).1
          = replicate (n `min` (MAX_REQUESTS_PER_HOUR + freed - length stored)) true
            ++ replicate (n - (MAX_REQUESTS_PER_HOUR + freed - length stored)) false)
     ∧ (∀ n : nat,
          length stored = MAX_REQUESTS_PER_HOUR →
          (run checkRateLimit (replicate n (now, ip)) requestLog).1
          = replicate (n `min` freed) true ++ replicate (n - freed) false)
     ∧ (∀ t, oldest stored = Some t → t + 3600000 < now →
             (checkRateLimit now ip requestLog).1 = true))
  ∧ (∀ ip,
       (run checkRateLimit
          (map (λ t, (t, ip)) (0 :: replicate 19 100 ++ [200; 3600001])) ∅).1
       = replicate 20 true ++ [false; true]
       ∧ retainedAt 3600000 3600001
           (requestsOf
              (run checkRateLimit
                 (map (λ t, (t, ip)) (0 :: replicate 19 100 ++ [200])) ∅).2 ip)
         = replicate 19 100
       ∧ requestsOf
           (run checkRateLimit
              (map (λ t, (t, ip)) (0 :: replicate 19 100 ++ [200; 3600001])) ∅).2 ip
         = replicate 19 100 ++ [3600001]).
Proof.
  split.
  - intros calls now ip requestLog stored freed.
    pose proof (retained_expired_length 3600000 now stored) as Hsplit.
    fold freed in Hsplit.
    assert (∀ n : nat,
              (run checkRateLimit (replicate n (now, ip)) requestLog).1
              = replicate (n `min` (MAX_REQUESTS_PER_HOUR + freed - length stored)) true
                ++ replicate (n - (MAX_REQUESTS_PER_HOUR + freed - length stored)) false)
      as Hcalls.
    { intros n. rewrite run_checkRateLimit, same_time_results by lia.
      fold stored.
      replace (MAX_REQUESTS_PER_HOUR - length (retainedAt 3600000 now stored))%nat
        with (MAX_REQUESTS_PER_HOUR + freed - length stored)%nat by lia.
      done. }
    split; [exact Hsplit|]. split; [|split; [exact Hcalls|split]].
    + rewrite checkRateLimit_limiter, limiter_admit_iff. fold stored. lia.
    + intros n Hfull. rewrite Hcalls.
      replace (MAX_REQUESTS_PER_HOUR + freed - length stored)%nat with freed by lia.
      done.
    + intros t Hold Hpast. rewrite checkRateLimit_limiter.
      apply (expired_entry_admits _ _ _ _ _ t).
      * subst requestLog. rewrite run_checkRateLimit.
        apply bounded_run, bounded_empty.
      * by apply oldest_elem.
      * lia.
  - intros ip.
    destruct (run_rename MAX_REQUESTS_PER_HOUR 3600000
                (0 :: replicate 19 100 ++ [200; 3600001]) "a" ip ∅ ∅)
      as [Hresults Hafter]; [by rewrite !lookup_empty|].
    destruct (run_rename MAX_REQUESTS_PER_HOUR 3600000
                (0 :: replicate 19 100 ++ [200]) "a" ip ∅ ∅)
      as [_ Hbefore]; [by rewrite !lookup_empty|].
    rewrite (run_checkRateLimit (map _ (0 :: replicate 19 100 ++ [200; 3600001]))).
    rewrite (run_checkRateLimit (map _ (0 :: replicate 19 100 ++ [200]))).
    unfold requestsOf. rewrite <- Hresults, <- Hafter, <- Hbefore.
    vm_compute. repeat split.
Qed.

Lemma expiry_frees_slots_witness :
  let ip := "192.0.2.7" in
  let calls := replicate 3 (0, ip) ++ replicate 17 (100, ip) in
  let now := 3600050 in
  let requestLog := (run checkRateLimit calls ∅).2 in
  let stored := requestsOf requestLog ip in
  let freed := length (expired 3600000 now stored) in
  length stored = MAX_REQUESTS_PER_HOUR
  ∧ freed = 3%nat
  ∧ oldest stored = Some 0
  ∧ 0 + 3600000 < now
  ∧ (run checkRateLimit (replicate 5 (now, ip)) requestLog).1
    = replicate (5 `min` freed) true ++ replicate (5 - freed) false
  ∧ (checkRateLimit now ip requestLog).1 = true.
Proof.
  intros ip calls now requestLog stored freed.
  assert (length stored = MAX_REQUESTS_PER_HOUR) as Hfull by (vm_compute; reflexivity).
  assert (freed = 3%nat) as Hfreed by (vm_compute; reflexivity).
  assert (oldest stored = Some 0) as Hold by (vm_compute; reflexivity).
  assert (0 + 3600000 < now) as Hpast by (unfold now; lia).
  split; [exact Hfull|]. split; [exact Hfreed|]. split; [exact Hold|].
  split; [exact Hpast|].
  split.
  - exact (proj1 (proj2 (proj2 (proj2 (proj1 expiry_frees_slots calls now ip))))
             5%nat Hfull).
  - exact (proj2 (proj2 (proj2 (proj2 (proj1 expiry_frees_slots calls now ip))))
             0 Hold Hpast).
Defined.

(** C6.  For distinct identities [A] and [B]: a call for [A] leaves the
    entry of [B] as it was; after any sequence of calls for [A] (for
    instance one that exhausts [A]'s quota) the entry of [B], the
    decision of a call for [B] at any time and the history that call
    stores are what they would have been without the calls for [A]; and
    in an arbitrary interleaving the history of [B] is the one that the
    calls for [B] alone produce. *)
Theorem identity_independence (A B : string) :
  A ≠ B →
  (∀ now requestLog, (checkRateLimit now A requestLog).2 !! B = requestLog !! B)
  ∧ (∀ (times : list Z) requestLog,
       let requestLog' :=
         (run checkRateLimit (map (λ t, (t, A)) times) requestLog).2 in
       requestLog' !! B = requestLog !! B
       ∧ ∀ now,
           (checkRateLimit now B requestLog').1 = (checkRateLimit now B requestLog).1
           ∧ (checkRateLimit now B requestLog').2 !! B
             = (checkRateLimit now B requestLog).2 !! B)
  ∧ (∀ calls requestLog,
       (run checkRateLimit calls requestLog).2 !! B
       = (run checkRateLimit (filter (λ c, c.2 = B) calls) requestLog).2 !! B).
Proof.
  intros Hne. split; [|split].
  - intros now m. rewrite checkRateLimit_limiter. by apply limiter_frame.
  - intros times m m'.
    assert (m' !! B = m !! B) as Hsame.
    { subst m'. rewrite run_checkRateLimit. by apply run_frame. }
    split; [exact Hsame|]. intros now.
    rewrite !checkRateLimit_limiter. by apply limiter_rename.
  - intros calls m. rewrite !run_checkRateLimit. by apply run_project.
Qed.

Lemma identity_independence_witness :
  "10.0.0.1" ≠ "10.0.0.2"
  ∧ (run checkRateLimit (map (λ t, (t, "10.0.0.1")) (replicate 20 0)) ∅).2 !! "10.0.0.2"
    = (∅ : gmap string (list Z)) !! "10.0.0.2".
Proof.
  assert ("10.0.0.1" ≠ "10.0.0.2") as Hne by (intros H; discriminate H).
  split; [exact Hne|].
  exact (proj1 (proj1 (proj2 (identity_independence "10.0.0.1" "10.0.0.2" Hne))
                  (replicate 20 0) ∅)).
Defined.

(** C7.  The decision of [checkRateLimit] and the history it stores for
    the identity are determined by the history stored for that identity
    and the clock value: two maps that agree on the identity give the
    same decision and the same new history, and equal maps give equal
    results.  The outcome is the one, and the only one, that the
    specification's five steps allow. *)
Theorem determinism (now : Z) (ip : string) (requestLog1 requestLog2 : gmap string (list Z)) :
  requestLog1 !! ip = requestLog2 !! ip →
  (checkRateLimit now ip requestLog1).1 = (checkRateLimit now ip requestLog2).1
  ∧ (checkRateLimit now ip requestLog1).2 !! ip = (checkRateLimit now ip requestLog2).2 !! ip
  ∧ (requestLog1 = requestLog2 →
     checkRateLimit now ip requestLog1 = checkRateLimit now ip requestLog2)
  ∧ specCheck MAX_REQUESTS_PER_HOUR 3600000 now ip requestLog1
      (checkRateLimit now ip requestLog1).1 (checkRateLimit now ip requestLog1).2
  ∧ ∀ ok requestLog',
      specCheck MAX_REQUESTS_PER_HOUR 3600000 now ip requestLog1 ok requestLog' →
      checkRateLimit now ip requestLog1 = (ok, requestLog').
Proof.
  intros Heq. rewrite !checkRateLimit_limiter.
  destruct (limiter_rename MAX_REQUESTS_PER_HOUR 3600000 now ip ip _ _ Heq) as [Hok Hst].
  split; [exact Hok|]. split; [exact Hst|]. split; [by intros ->|].
  split; [apply limiter_refines_spec|].
  intros ok m' Hspec.
  destruct (specCheck_functional _ _ _ _ _ _ _ _ _
              (limiter_refines_spec MAX_REQUESTS_PER_HOUR 3600000 now ip requestLog1) Hspec)
    as [<- <-].
  apply surjective_pairing.
Qed.

Lemma determinism_witness :
  (∅ : gmap string (list Z)) !! "10.0.0.1"
  = ({[ "10.0.0.2" := [7] ]} : gmap string (list Z)) !! "10.0.0.1"
  ∧ (checkRateLimit 9 "10.0.0.1" ∅).1
    = (checkRateLimit 9 "10.0.0.1" {[ "10.0.0.2" := [7] ]}).1.
Proof.
  assert ((∅ : gmap string (list Z)) !! "10.0.0.1"
          = ({[ "10.0.0.2" := [7] ]} : gmap string (list Z)) !! "10.0.0.1") as Heq
    by (vm_compute; reflexivity).
  split; [exact Heq|].
  exact (proj1 (determinism 9 "10.0.0.1" ∅ {[ "10.0.0.2" := [7] ]} Heq)).
Defined.

(** C8.  [checkRateLimit] is total: for every identity, clock value and
    map it returns a boolean and a map.  The empty string is a key like
    any other: a single call, and any sequence of calls, for [""] is
    decided exactly as the same calls for any identity [ip] whose stored
    history is the same, and leaves the same history; all callers that
    use [""] therefore draw on one bucket, 20 admissions at one clock
    value and then rejection. *)
Theorem total_and_empty_key (now : Z) (ip : string) (requestLog : gmap string (list Z)) :
  (∃ ok requestLog', checkRateLimit now ip requestLog = (ok, requestLog')
                     ∧ (ok = true ∨ ok = false))
  ∧ (∀ requestLog0,
       requestLog0 !! "" = requestLog !! ip →
       ((checkRateLimit now "" requestLog0).1 = (checkRateLimit now ip requestLog).1
        ∧ (checkRateLimit now "" requestLog0).2 !! ""
          = (checkRateLimit now ip requestLog).2 !! ip)
       ∧ ∀ times : list Z,
           (run checkRateLimit (map (λ t, (t, "")) times) requestLog0).1
           = (run checkRateLimit (map (λ t, (t, ip)) times) requestLog).1
           ∧ (run checkRateLimit (map (λ t, (t, "")) times) requestLog0).2 !! ""
             = (run checkRateLimit (map (λ t, (t, ip)) times) requestLog).2 !! ip)
  ∧ (run checkRateLimit (replicate (S MAX_REQUESTS_PER_HOUR) (now, "")) ∅).1
    = replicate MAX_REQUESTS_PER_HOUR true ++ [false].
Proof.
  split; [|split].
  - exists (checkRateLimit now ip requestLog).1, (checkRateLimit now ip requestLog).2.
    split; [apply surjective_pairing|].
    destruct (checkRateLimit now ip requestLog).1; [by left|by right].
  - intros m0 Heq. split.
    + rewrite !checkRateLimit_limiter. by apply limiter_rename.
    + intros times. rewrite !run_checkRateLimit. by apply run_rename.
  - rewrite run_checkRateLimit, same_time_results by lia.
    rewrite requestsOf_empty. reflexivity.
Qed.

Lemma total_and_empty_key_witness :
  ({[ "" := [3; 4] ]} : gmap string (list Z)) !! ""
  = ({[ "10.0.0.1" := [3; 4] ]} : gmap string (list Z)) !! "10.0.0.1"
  ∧ (checkRateLimit 5 "" {[ "" := [3; 4] ]}).1
    = (checkRateLimit 5 "10.0.0.1" {[ "10.0.0.1" := [3; 4] ]}).1.
Proof.
  assert (({[ "" := [3; 4] ]} : gmap string (list Z)) !! ""
          = ({[ "10.0.0.1" := [3; 4] ]} : gmap string (list Z)) !! "10.0.0.1") as Heq
    by (vm_compute; reflexivity).
  split; [exact Heq|].
  exact (proj1 (proj1 (proj1 (proj2
           (total_and_empty_key 5 "10.0.0.1" {[ "10.0.0.1" := [3; 4] ]}))
           {[ "" := [3; 4] ]} Heq))).
Defined.

(** C9.  The pruning filter [time > oneHourAgo] is strict: a timestamp
    that is exactly 3 600 000 ms old is dropped, and is absent from the
    history an admitted call stores.  So in every reachable map a call
    made exactly 3 600 000 ms after the oldest stored timestamp is
    admitted; for an identity that filled its quota at time [t], the
    call at [t + 3600000 - 1] is still rejected and the call at
    [t + 3600000] is admitted. *)
Theorem boundary_expires :
  (∀ (now : Z) (requests : list Z),
     now - 60 * 60 * 1000 ∉ filter (λ time, time > now - 60 * 60 * 1000) requests)
  ∧ (∀ now ip requestLog,
       (checkRateLimit now ip requestLog).1 = true →
       now - 60 * 60 * 1000 ∉ requestsOf (checkRateLimit now ip requestLog).2 ip)
  ∧ (∀ calls ip t,
       let requestLog := (run checkRateLimit calls ∅).2 in
       oldest (requestsOf requestLog ip) = Some t →
       (checkRateLimit (t + 60 * 60 * 1000) ip requestLog).1 = true)
  ∧ (∀ t ip requestLog,
       requestLog !! ip = None →
       let full := (run checkRateLimit (replicate MAX_REQUESTS_PER_HOUR (t, ip)) requestLog).2 in
       requestsOf full ip = replicate MAX_REQUESTS_PER_HOUR t
       ∧ (checkRateLimit (t + 60 * 60 * 1000 - 1) ip full).1 = false
       ∧ (checkRateLimit (t + 60 * 60 * 1000) ip full).1 = true).
Proof.
  split; [|split; [|split]].
  - intros now requests Hin. apply list_elem_of_filter in Hin. lia.
  - intros now ip m Hok Hin. rewrite checkRateLimit_limiter in Hok, Hin.
    rewrite limiter_admit_state, requestsOf_insert in Hin by done.
    apply elem_of_app in Hin as [Hin|Hin].
    + apply retainedAt_elem in Hin. lia.
    + apply list_elem_of_singleton in Hin. lia.
  - intros calls ip t m Hold. rewrite checkRateLimit_limiter.
    apply (expired_entry_admits _ _ _ _ _ t).
    + subst m. rewrite run_checkRateLimit. apply bounded_run, bounded_empty.
    + by apply oldest_elem.
    + lia.
  - intros t ip m Hnone full.
    assert (requestsOf full ip = replicate MAX_REQUESTS_PER_HOUR t) as Hfull.
    { subst full. rewrite run_checkRateLimit.
      rewrite (same_time_state MAX_REQUESTS_PER_HOUR 3600000 ltac:(lia) t ip _ 0%nat);
        [done| |lia].
      unfold requestsOf. by rewrite Hnone. }
    split; [exact Hfull|]. rewrite !checkRateLimit_limiter. split.
    + apply limiter_reject_iff. rewrite Hfull.
      unfold retainedAt. rewrite filter_Forall_id.
      * by rewrite length_replicate.
      * apply Forall_replicate. lia.
    + apply limiter_admit_iff. rewrite Hfull, retainedAt_none.
      * simpl. unfold MAX_REQUESTS_PER_HOUR. lia.
      * apply Forall_replicate. lia.
Qed.

Lemma boundary_expires_witness :
  let requestLog := (run checkRateLimit (replicate 20 (5000, "192.0.2.7")) ∅).2 in
  oldest (requestsOf requestLog "192.0.2.7") = Some 5000
  ∧ (checkRateLimit 3604999 "192.0.2.7" requestLog).1 = false
  ∧ (checkRateLimit 3605000 "192.0.2.7" requestLog).1 = true
  ∧ 3605000 - 60 * 60 * 1000
    ∉ requestsOf (checkRateLimit 3605000 "192.0.2.7" requestLog).2 "192.0.2.7".
Proof.
  intros requestLog.
  assert (oldest (requestsOf requestLog "192.0.2.7") = Some 5000) as Hold
    by (vm_compute; reflexivity).
  pose proof (proj1 (proj2 (proj2 boundary_expires))
                (replicate 20 (5000, "192.0.2.7")) "192.0.2.7" 5000 Hold) as Hadm.
  split; [exact Hold|]. split; [vm_compute; reflexivity|]. split; [exact Hadm|].
  exact (proj1 (proj2 boundary_expires) 3605000 "192.0.2.7" requestLog Hadm).
Defined.

(** C10.  In every map reachable from the empty one by any sequence of
    calls, whatever the clock values, every identity's stored sequence,
    stale entries included, has at most [MAX_REQUESTS_PER_HOUR] (20)
    timestamps. *)
Theorem bounded_memory (calls : list (Z * string)) (ip : string) :
  (length (requestsOf (run checkRateLimit calls ∅).2 ip) ≤ MAX_REQUESTS_PER_HOUR)%nat.
Proof.
  rewrite run_checkRateLimit. apply bounded_run, bounded_empty.
Qed.

(** ** The request handler *)

Ltac handler_cases :=
  unfold handler;
  repeat (first
    [ progress simpl in *
    | match goal with
      | |- context [String.eqb ?a ?b] => destruct (String.eqb_spec a b)
      | |- context [checkRateLimit ?now ?ip ?m] =>
          let ok := fresh "ok" in
          let H := fresh "Hcheck" in
          destruct (checkRateLimit now ip m) as [ok ?] eqn:H; destruct ok
      | |- context [body ?req] =>
          let H := fresh "Hbody" in destruct (body req) eqn:H
      | |- context [fieldTruthy ?x] =>
          let H := fresh "Hpresent" in destruct (fieldTruthy x) eqn:H
      | |- context [promptData ?fields] =>
          let H := fresh "Hdata" in destruct (promptData fields) eqn:H
      | |- context [truthy ?x] =>
          let H := fresh "Hkey" in destruct (truthy x) eqn:H
      | |- context [match ?api ?call with Resolved _ => _ | Rejected _ => _ end] =>
          let H := fresh "Hapi" in destruct (api call) eqn:H
      | |- context [bool_decide ?P] => case_bool_decide
      end ]).

(** X1.  A request whose method is not POST never reaches the rate
    limiter or the external API: the map is returned as it was, no API
    call is made, and the reply is 200 without a body for OPTIONS and
    405 otherwise. *)
Theorem handler_non_post_is_inert buildAnalysisPrompt api apiKey now req requestLog :
  method req ≠ "POST" →
  let outcome := handler buildAnalysisPrompt api apiKey now req requestLog in
  logAfter outcome = requestLog
  ∧ apiCalls outcome = []
  ∧ reply outcome
    = if String.eqb (method req) "OPTIONS" then Ended 200
      else Json 405 (ErrorOnly "Method not allowed").
Proof.
  intros Hnot. handler_cases; done.
Qed.

Lemma handler_non_post_is_inert_witness :
  let req := {| method := "GET"; forwardedFor := Some "203.0.113.9";
                remoteAddress := None; body := inl "no body" |} in
  method req ≠ "POST"
  ∧ reply (handler (λ _, []) (λ _, Resolved []) (Some "key") 5 req ∅)
    = Json 405 (ErrorOnly "Method not allowed").
Proof.
  intros req.
  assert (method req ≠ "POST") as Hnot by (intros H; discriminate H).
  split; [exact Hnot|].
  exact (proj2 (proj2 (handler_non_post_is_inert
                         (λ _, []) (λ _, Resolved []) (Some "key") 5 req ∅ Hnot))).
Defined.

(** X2.  Every POST charges the rate limiter exactly once, before the
    body is looked at: whatever the body, the configuration and the
    external service do, the map after the invocation is the one
    [checkRateLimit] returns for the caller's identity.  So an admitted
    request has its clock value recorded even when it is then answered
    with 400, 401 or 500. *)
Theorem handler_post_charges_limiter buildAnalysisPrompt api apiKey now req requestLog :
  method req = "POST" →
  let outcome := handler buildAnalysisPrompt api apiKey now req requestLog in
  logAfter outcome = (checkRateLimit now (identityOf req) requestLog).2
  ∧ ((checkRateLimit now (identityOf req) requestLog).1 = true →
     now ∈ requestsOf (logAfter outcome) (identityOf req)).
Proof.
  intros Hpost outcome.
  assert (logAfter outcome = (checkRateLimit now (identityOf req) requestLog).2) as Hlog.
  { subst outcome. unfold identityOf. handler_cases; congruence. }
  split; [exact Hlog|]. intros Hok. rewrite Hlog.
  rewrite checkRateLimit_limiter in Hok |- *.
  rewrite limiter_admit_state, requestsOf_insert by done.
  apply elem_of_app. right. apply list_elem_of_here.
Qed.

Lemma handler_post_charges_limiter_witness :
  let req := {| method := "POST"; forwardedFor := Some "203.0.113.9";
                remoteAddress := None; body := inl "Unexpected end of JSON input" |} in
  let outcome := handler (λ _, []) (λ _, Resolved []) (Some "key") 5 req ∅ in
  method req = "POST"
  ∧ (checkRateLimit 5 (identityOf req) ∅).1 = true
  ∧ reply outcome = Json 500 (ErrorDetails "Analysis failed" "Unexpected end of JSON input")
  ∧ 5 ∈ requestsOf (logAfter outcome) (identityOf req).
Proof.
  intros req outcome.
  assert ((checkRateLimit 5 (identityOf req) ∅).1 = true) as Hok
    by (vm_compute; reflexivity).
  split; [reflexivity|]. split; [exact Hok|]. split; [vm_compute; reflexivity|].
  exact (proj2 (handler_post_charges_limiter
                  (λ _, []) (λ _, Resolved []) (Some "key") 5 req ∅ eq_refl) Hok).
Defined.

(** X3.  When the rate limiter rejects a POST, the handler answers 429
    with the fixed message, makes no API call and leaves the map as it
    was, whatever the body and the configuration are. *)
Theorem handler_rejected_is_429 buildAnalysisPrompt api apiKey now req requestLog :
  method req = "POST" →
  (checkRateLimit now (identityOf req) requestLog).1 = false →
  handler buildAnalysisPrompt api apiKey now req requestLog
  = {| reply := Json 429 (ErrorOnly "Rate limit exceeded. Try again later.");
       apiCalls := [];
       logAfter := requestLog |}.
Proof.
  intros Hpost Hrej.
  pose proof Hrej as Hsame. rewrite checkRateLimit_limiter in Hsame.
  apply limiter_reject_state in Hsame. rewrite <- checkRateLimit_limiter in Hsame.
  revert Hrej Hsame. unfold identityOf. handler_cases; congruence.
Qed.

Lemma handler_rejected_is_429_witness :
  let req := {| method := "POST"; forwardedFor := None;
                remoteAddress := Some "198.51.100.4"; body := inl "no body" |} in
  let full := (run checkRateLimit (replicate 20 (1000, "198.51.100.4")) ∅).2 in
  method req = "POST"
  ∧ (checkRateLimit 1000 (identityOf req) full).1 = false
  ∧ handler (λ _, []) (λ _, Resolved []) (Some "key") 1000 req full
    = {| reply := Json 429 (ErrorOnly "Rate limit exceeded. Try again later.");
         apiCalls := [];
         logAfter := full |}.
Proof.
  intros req full.
  assert ((checkRateLimit 1000 (identityOf req) full).1 = false) as Hrej
    by (vm_compute; reflexivity).
  split; [reflexivity|]. split; [exact Hrej|].
  exact (handler_rejected_is_429 (λ _, []) (λ _, Resolved []) (Some "key")
           1000 req full eq_refl Hrej).
Defined.


(** A truthy field that cannot be converted to a string: the request is
    answered 500 with the conversion's message and the API is not
    called, although the field check of line 52 passes. *)
Example unconvertible_field_is_500 :
  let fields := {| primaryKeyword :=
                     NonString true (inl "Cannot convert object to primitive value");
                   city := Str (units "c"); state := Str (units "s");
                   highRankingUrl := Str (units "h");
                   lowRankingUrl := Str (units "l") |} in
  let req := {| method := "POST"; forwardedFor := Some "203.0.113.9";
                remoteAddress := None; body := inr fields |} in
  let outcome := handler (λ _, []) (λ _, Resolved []) (Some "key") 5 req ∅ in
  fieldsPresent fields = true
  ∧ reply outcome
    = Json 500 (ErrorDetails "Analysis failed" "Cannot convert object to primitive value")
  ∧ apiCalls outcome = [].
Proof. vm_compute. done. Qed.

(** X5.  The handler answers with one of the status codes 200, 400, 401,
    405, 429 and 500 only.  A success payload is sent only with status
    200, only after exactly one API call that resolved, and its
    [analysis] is the text of that call's message. *)
Theorem handler_replies buildAnalysisPrompt api apiKey now req requestLog :
  let outcome := handler buildAnalysisPrompt api apiKey now req requestLog in
  replyStatus (reply outcome) ∈ [200; 400; 401; 405; 429; 500]
  ∧ ∀ status text,
      reply outcome = Json status (Success text) →
      status = 200
      ∧ ∃ call content,
          apiCalls outcome = [call]
          ∧ api call = Resolved content
          ∧ text = responseText content.
Proof.
  handler_cases; try congruence; (split; [set_solver|]); intros status text Heq;
    try discriminate Heq; injection Heq as <- <-; split; [done|]; eauto.
Qed.

Lemma handler_replies_witness :
  let fields := {| primaryKeyword := Str (units "car accident lawyer");
                   city := Str (units "Austin"); state := Str (units "TX");
                   highRankingUrl := Str (units "https://a.example/");
                   lowRankingUrl := Str (units "https://b.example/") |} in
  let req := {| method := "POST"; forwardedFor := Some "203.0.113.9";
                remoteAddress := None; body := inr fields |} in
  let api := λ _ : ApiCall,
    Resolved [ {| block_type := "text"; block_text := Some (units "## A) ...") |} ] in
  let outcome := handler (λ _, []) api (Some "key") 5 req ∅ in
  reply outcome = Json 200 (Success (units "## A) ..."))
  ∧ ∃ call content,
      apiCalls outcome = [call] ∧ api call = Resolved content
      ∧ units "## A) ..." = responseText content.
Proof.
  intros fields req api outcome.
  assert (reply outcome = Json 200 (Success (units "## A) ..."))) as Hreply
    by (vm_compute; reflexivity).
  split; [exact Hreply|].
  exact (proj2 (proj2 (handler_replies (λ _, []) api (Some "key") 5 req ∅)
                  200 (units "## A) ...") Hreply)).
Defined.

(** X6.  When the API call fails, the handler answers 401 with the fixed
    message "Invalid API key" if the failure has status 401, and
    otherwise 500 with the failure's own message relayed in [details]. *)
Theorem handler_relays_api_failure buildAnalysisPrompt api apiKey now req requestLog
    call error :
  let outcome := handler buildAnalysisPrompt api apiKey now req requestLog in
  apiCalls outcome = [call] →
  api call = Rejected error →
  reply outcome
  = if bool_decide (error_status error = Some 401)
    then Json 401 (ErrorOnly "Invalid API key")
    else Json 500 (ErrorDetails "Analysis failed" (error_message error)).
Proof.
  handler_cases; intros [= <-] Hrej; try discriminate;
    rewrite Hrej in *; simplify_eq; by rewrite ?bool_decide_eq_true_2, ?bool_decide_eq_false_2.
Qed.

Lemma handler_relays_api_failure_witness :
  let fields := {| primaryKeyword := Str (units "k");
                   city := Str (units "c"); state := Str (units "s");
                   highRankingUrl := Str (units "h");
                   lowRankingUrl := Str (units "l") |} in
  let req := {| method := "POST"; forwardedFor := Some "203.0.113.9";
                remoteAddress := None; body := inr fields |} in
  let error := {| error_status := Some 529; error_message := "Overloaded" |} in
  let api := λ _ : ApiCall, Rejected error in
  let call := {| call_apiKey := "key"; call_model := "claude-sonnet-4-20250514";
                 call_max_tokens := 4096; call_temperature := "0.3";
                 call_prompt := [] |} in
  let outcome := handler (λ _, []) api (Some "key") 5 req ∅ in
  apiCalls outcome = [call]
  ∧ reply outcome
    = if bool_decide (error_status error = Some 401)
      then Json 401 (ErrorOnly "Invalid API key")
      else Json 500 (ErrorDetails "Analysis failed" (error_message error)).
Proof.
  intros fields req error api call outcome.
  assert (apiCalls outcome = [call]) as Hcall by (vm_compute; reflexivity).
  split; [exact Hcall|].
  exact (handler_relays_api_failure (λ _, []) api (Some "key") 5 req ∅
           call error Hcall eq_refl).
Defined.

(** ** The rate limit as a bound on the calls of the external API *)











(** ** White space and [trim] *)

Lemma trimStart_nil_iff s : trimStart s = [] ↔ forallb isWhiteSpace s = true.
Proof.
  induction s as [|c s IH]; [done|]. simpl.
  destruct (isWhiteSpace c); [exact IH|]. split; discriminate.
Qed.

Lemma trimStart_head s c s' : trimStart s = c :: s' → isWhiteSpace c = false.
Proof.
  induction s as [|x s IH]; [done|]. simpl.
  destruct (isWhiteSpace x) eqn:Hx; [exact IH|]. by intros [= <- _].
Qed.

Lemma forallb_reverse {A} (f : A → bool) (l : list A) :
  forallb f (reverse l) = forallb f l.
Proof.
  induction l as [|x l IH]; [done|].
  rewrite reverse_cons, forallb_app, IH. simpl. by rewrite andb_true_r, andb_comm.
Qed.

Lemma trim_nil_iff s : trim s = [] ↔ forallb isWhiteSpace s = true.
Proof.
  unfold trim, trimEnd. rewrite <- trimStart_nil_iff.
  split.
  - intros Hnil.
    assert (trimStart (reverse (trimStart s)) = []) as Hrev.
    { apply (f_equal reverse) in Hnil. by rewrite reverse_involutive in Hnil. }
    apply trimStart_nil_iff in Hrev. rewrite forallb_reverse in Hrev.
    destruct (trimStart s) as [|c s'] eqn:Hs; [done|].
    apply trimStart_head in Hs. simpl in Hrev. by rewrite Hs in Hrev.
  - by intros ->.
Qed.

Lemma present_trim s : present (Some (trim s)) = hasVisible s.
Proof.
  unfold hasVisible.
  destruct (trim s) as [|c s'] eqn:Htrim; simpl.
  - apply trim_nil_iff in Htrim. symmetry. apply not_true_is_false.
    intros [c [Hin Hc]]%existsb_exists.
    rewrite forallb_forall in Htrim. specialize (Htrim c Hin).
    by rewrite Htrim in Hc.
  - symmetry. apply not_false_iff_true. intros Hnone.
    assert (trim s = []) as Hnil; [|by rewrite Hnil in Htrim].
    apply trim_nil_iff, forallb_forall. intros x Hx.
    destruct (isWhiteSpace x) eqn:Hws; [done|].
    assert (existsb (λ c, negb (isWhiteSpace c)) s = true) as Hex; [|congruence].
    apply existsb_exists. exists x. by rewrite Hws.
Qed.

Lemma hasVisible_nonempty s : hasVisible s = true → present (Some s) = true.
Proof. by destruct s. Qed.

(** ** The form *)

Lemma handleChange_keeps_fields name value formData field :
  is_Some (formData !! field) → is_Some (handleChange name value formData !! field).
Proof.
  intros Hsome. unfold handleChange.
  destruct (decide (name = field)) as [->|Hne].
  - rewrite lookup_insert_eq. eauto.
  - by rewrite lookup_insert_ne.
Qed.

Lemma foldl_handleChange_keeps events formData field :
  is_Some (formData !! field) →
  is_Some (foldl (λ formData event, handleChange event.1 event.2 formData)
             formData events !! field).
Proof.
  revert formData. induction events as [|[name value] events IH]; intros fd Hsome; [done|].
  simpl. apply IH. by apply handleChange_keeps_fields.
Qed.

Lemma formAfter_fields events field :
  field ∈ fieldNames → is_Some (formAfter events !! field).
Proof.
  intros Hin. apply foldl_handleChange_keeps.
  unfold fieldNames in Hin. unfold initialFormData.
  repeat (apply elem_of_cons in Hin as [->|Hin]; [by simplify_map_eq|]).
  by apply elem_of_nil in Hin.
Qed.

Lemma isFormValid_present formData :
  (∀ field, field ∈ fieldNames → is_Some (formData !! field)) →
  ∃ valid, isFormValid formData = Some valid
    ∧ present (Some valid)
      = forallb (λ field, hasVisible (default [] (formData !! field))) fieldNames.
Proof.
  intros Hall. unfold isFormValid, trimmedField, fieldNames. cbn [forallb].
  destruct (Hall "primaryKeyword") as [a Ha]; [set_solver|].
  destruct (Hall "city") as [b Hb]; [set_solver|].
  destruct (Hall "state") as [c Hc]; [set_solver|].
  destruct (Hall "highRankingUrl") as [d Hd]; [set_solver|].
  destruct (Hall "lowRankingUrl") as [e He]; [set_solver|].
  rewrite Ha, Hb, Hc, Hd, He.
  cbn [fmap option_fmap option_map default from_option id].
  rewrite <- !present_trim.
  destruct (trim a), (trim b), (trim c), (trim d), (trim e);
    (eexists; split; [reflexivity|]); simpl; by rewrite ?andb_false_r.
Qed.

(** X8.  Whatever change events the form receives, also for names that
    are none of the five inputs, the five properties stay defined, so
    evaluating [isFormValid] never calls [trim] on [undefined]; and its
    value is truthy exactly when each of the five fields holds a code
    unit that is not white space. *)
Theorem form_validity (events : list (string * list N)) :
  ∃ valid,
    isFormValid (formAfter events) = Some valid
    ∧ present (Some valid)
      = forallb (λ field, hasVisible (default [] (formAfter events !! field)))
                fieldNames.
Proof. apply isFormValid_present. intros field. apply formAfter_fields. Qed.

(** X9.  The form is at least as strict as the handler: whenever the
    submit button is enabled, the body built from the form state has the
    five fields non-empty, so a POST with that body is never answered
    with 400. *)
Theorem enabled_form_passes_field_check formData isLoading :
  submitDisabled formData isLoading = Some false →
  fieldsPresent (bodyOf formData) = true
  ∧ ∀ buildAnalysisPrompt api apiKey now forwardedFor remoteAddress requestLog,
      replyStatus
        (reply (handler buildAnalysisPrompt api apiKey now
                  {| method := "POST"; forwardedFor := forwardedFor;
                     remoteAddress := remoteAddress;
                     body := inr (bodyOf formData) |}
                  requestLog))
      ≠ 400.
Proof.
  intros Henabled.
  assert (fieldsPresent (bodyOf formData) = true) as Hfields.
  { revert Henabled.
    unfold submitDisabled, isFormValid, trimmedField, fieldsPresent, bodyOf. simpl.
    destruct (formData !! "primaryKeyword") as [a|]; [|done].
    destruct (formData !! "city") as [b|];
      destruct (formData !! "state") as [c|];
      destruct (formData !! "highRankingUrl") as [d|];
      destruct (formData !! "lowRankingUrl") as [e|]; simpl;
      repeat match goal with
             | |- context [trim ?x] =>
                 let H := fresh "Htrim" in
                 destruct (trim x) eqn:H; [try (simpl; done)|];
                 destruct x; [discriminate H|]; clear H
             end; simpl; try done.
    all: destruct isLoading; simpl; done. }
  split; [exact Hfields|]. intros.
  unfold fieldsPresent in Hfields. simpl in Hfields.
  repeat (apply andb_prop in Hfields as [Hfields ?]).
  handler_cases; simpl in *; congruence.
Qed.

Lemma enabled_form_passes_field_check_witness :
  let formData :=
    formAfter [("primaryKeyword", units "car accident lawyer"); ("city", units "Austin");
               ("state", units "TX"); ("highRankingUrl", units "https://a.example/");
               ("lowRankingUrl", units "https://b.example/")] in
  submitDisabled formData false = Some false
  ∧ fieldsPresent (bodyOf formData) = true.
Proof.
  intros formData.
  assert (submitDisabled formData false = Some false) as Henabled
    by (vm_compute; reflexivity).
  split; [exact Henabled|].
  exact (proj1 (enabled_form_passes_field_check formData false Henabled)).
Defined.

(** ** String helpers of the renderer *)

Lemma startsWith_app_drop p s :
  startsWith p s = true → p ++ drop (length p) s = s.
Proof.
  revert s. induction p as [|a p IH]; intros [|b s]; simpl; try done.
  intros [Hab Hrest]%andb_prop. apply N.eqb_eq in Hab as ->.
  by rewrite IH.
Qed.

Lemma replaceFirst_prefix p s :
  startsWith p s = true → p ++ replaceFirst p s = s.
Proof.
  intros Hp. destruct s as [|c s]; simpl; rewrite Hp; by apply startsWith_app_drop.
Qed.

Lemma stripBullet_list_line t :
  startsWith (units "- ") t || startsWith (units "* ") t = true →
  stripBullet t = drop 2 t
  ∧ ∃ marker, (marker = 45 ∨ marker = 42)%N ∧ t = marker :: 32%N :: drop 2 t.
Proof.
  change (units "- ") with [45; 32]%N. change (units "* ") with [42; 32]%N.
  destruct t as [|x [|y rest]]; cbn [startsWith stripBullet drop].
  - done.
  - by rewrite !andb_false_r.
  - destruct (N.eqb_spec 45 x) as [Hdash|Hdash]; destruct (N.eqb_spec 32 y) as [Hsp|Hsp];
      destruct (N.eqb_spec 42 x) as [Hstar|Hstar]; simpl; try done;
      subst; (split; [done|]); eauto.
Qed.

Lemma splitBold_cons c c' s :
  splitBold (c :: c' :: s)
  = if (c =? 42)%N && (c' =? 42)%N then [] :: splitBold s
    else match splitBold (c' :: s) with
         | part :: parts => (c :: part) :: parts
         | [] => [[c]]
         end.
Proof. reflexivity. Qed.

Lemma splitBold_nonempty s : splitBold s ≠ [].
Proof.
  destruct s as [|c [|c' rest]]; [done..|].
  rewrite splitBold_cons.
  destruct ((c =? 42)%N && (c' =? 42)%N); [done|].
  by destruct (splitBold (c' :: rest)).
Qed.

Lemma join_cons_head sep c part parts :
  join sep ((c :: part) :: parts) = c :: join sep (part :: parts).
Proof. by destruct parts. Qed.

Lemma join_splitBold s : join (units "**") (splitBold s) = s.
Proof.
  change (units "**") with [42; 42]%N.
  assert (join [42; 42]%N (splitBold s) = s
          ∧ ∀ c, join [42; 42]%N (splitBold (c :: s)) = c :: s) as [? _]; [|done].
  induction s as [|c' s [IH1 IH2]]; [by split|].
  split; [apply IH2|]. intros c. rewrite splitBold_cons.
  destruct ((c =? 42)%N && (c' =? 42)%N) eqn:Hstars.
  - apply andb_prop in Hstars as [->%N.eqb_eq ->%N.eqb_eq].
    pose proof (splitBold_nonempty s).
    destruct (splitBold s) as [|part parts] eqn:Hs; [done|].
    rewrite <- IH1. reflexivity.
  - pose proof (splitBold_nonempty (c' :: s)).
    destruct (splitBold (c' :: s)) as [|part parts] eqn:Hs; [done|].
    by rewrite join_cons_head, <- Hs, IH2.
Qed.

Lemma inlineText_renderParts odd parts :
  map inlineText (renderParts odd parts) = parts.
Proof.
  revert odd. induction parts as [|part parts IH]; intros odd; [done|].
  simpl. rewrite IH. by destruct odd.
Qed.

(** ** The renderer keeps every line *)

Lemma filter_snoc_true {A} (f : A → bool) (l : list A) (x : A) :
  filter (λ y, f y = true) (l ++ [x])
  = filter (λ y, f y = true) l ++ (if f x then [x] else []).
Proof.
  rewrite filter_app. f_equal. rewrite filter_cons, filter_nil.
  destruct (f x); by case_decide.
Qed.

Lemma filter_snoc_false {A} (f : A → bool) (l : list A) (x : A) :
  filter (λ y, f y = false) (l ++ [x])
  = filter (λ y, f y = false) l ++ (if f x then [] else [x]).
Proof.
  rewrite filter_app. f_equal. rewrite filter_cons, filter_nil.
  destruct (f x); by case_decide.
Qed.

Lemma lastIsUL_snoc rendered element :
  lastIsUL (rendered ++ [element]) = isUL element.
Proof. unfold lastIsUL. by rewrite last_snoc. Qed.

Lemma noAdjacentLists_snoc rendered element :
  noAdjacentLists (rendered ++ [element])
  = noAdjacentLists rendered && negb (lastIsUL rendered && isUL element).
Proof.
  induction rendered as [|a [|b rest] IH]; [done| |].
  - simpl. unfold lastIsUL. simpl. by rewrite andb_true_r.
  - change (noAdjacentLists ((a :: b :: rest) ++ [element]))
      with (negb (isUL a && isUL b) && noAdjacentLists ((b :: rest) ++ [element])).
    rewrite IH.
    change (noAdjacentLists (a :: b :: rest))
      with (negb (isUL a && isUL b) && noAdjacentLists (b :: rest)).
    change (lastIsUL (a :: b :: rest)) with (lastIsUL (b :: rest)).
    by rewrite andb_assoc.
Qed.

Lemma renderInv_empty :
  renderInv [] {| elements := []; listItems := []; inList := false |}.
Proof. unfold renderInv. simpl. repeat split; done. Qed.

Lemma renderInv_push processed st line element :
  renderInv processed st →
  isListLine line = false →
  isUL element = false →
  sourceLine element = Some (trim line) →
  renderInv (processed ++ [line]) (push element (closeList st)).
Proof.
  intros (Hoff & Hon & Hcount & Hitems & Hsource & Hul & Hadj & Hlast) Hline Helem Hsrc.
  assert (linesOf element = 1%nat ∧ itemsOf element = []) as [Hone Hnone]
    by (by destruct element).
  unfold renderInv. rewrite filter_snoc_true, filter_snoc_false, Hline, length_app.
  rewrite app_nil_r. unfold push, closeList.
  destruct st as [els items [|]]; cbn [elements listItems inList] in *.
  - specialize (Hon eq_refl).
    rewrite !map_app, !concat_app, !sum_list_with_app, !omap_app.
    cbn [map concat omap list_omap sum_list_with itemsOf linesOf sourceLine].
    rewrite Hsrc, Hone, Hnone, <- Hsource, <- Hitems, !app_nil_r.
    repeat split; try done.
    + simpl. lia.
    + rewrite !Forall_app. repeat split; [done| |].
      * constructor; [|done]. simpl. destruct items; [done|simpl; lia].
      * constructor; [lia|done].
    + rewrite !noAdjacentLists_snoc, lastIsUL_snoc, Hadj, Hlast, Helem. done.
    + by rewrite lastIsUL_snoc.
  - specialize (Hoff eq_refl). subst items.
    rewrite !map_app, !concat_app, !sum_list_with_app, !omap_app.
    cbn [map concat omap list_omap sum_list_with itemsOf linesOf sourceLine].
    rewrite Hsrc, Hone, Hnone, <- Hsource, <- Hitems, !app_nil_r.
    repeat split; try done.
    + simpl in *. lia.
    + rewrite Forall_app. split; [done|]. constructor; [lia|done].
    + rewrite noAdjacentLists_snoc, Hadj, Hlast. done.
    + by rewrite lastIsUL_snoc.
Qed.

Lemma renderInv_item processed st line :
  renderInv processed st →
  isListLine line = true →
  startsWith (units "- ") (trim line) || startsWith (units "* ") (trim line) = true →
  renderInv (processed ++ [line])
    {| elements := elements st;
       listItems := listItems st ++ [stripBullet (trim line)];
       inList := true |}.
Proof.
  intros (Hoff & Hon & Hcount & Hitems & Hsource & Hul & Hadj & Hlast) Hline Hmark.
  destruct (stripBullet_list_line _ Hmark) as [-> _].
  unfold renderInv. rewrite filter_snoc_true, filter_snoc_false, Hline, length_app.
  cbn [elements listItems inList]. rewrite app_nil_r, map_app, app_assoc, Hitems.
  repeat split; try done.
  - intros _. by destruct (listItems st).
  - rewrite length_app. simpl. lia.
Qed.

Lemma renderInv_step processed st line :
  renderInv processed st → renderInv (processed ++ [line]) (renderLine st line).
Proof.
  intros Hinv. unfold renderLine.
  pose proof (eq_refl (isListLine line)) as Hline. unfold isListLine at 2 in Hline.
  cbn zeta in Hline.
  destruct (startsWith (units "### ") (trim line)) eqn:H3.
  { apply renderInv_push; [done..|]. cbn [sourceLine]. f_equal. by apply replaceFirst_prefix. }
  destruct (startsWith (units "## ") (trim line)) eqn:H2.
  { apply renderInv_push; [done..|]. cbn [sourceLine]. f_equal. by apply replaceFirst_prefix. }
  destruct (startsWith (units "# ") (trim line)) eqn:H1.
  { apply renderInv_push; [done..|]. cbn [sourceLine]. f_equal. by apply replaceFirst_prefix. }
  destruct (startsWith (units "- ") (trim line) || startsWith (units "* ") (trim line))
    eqn:Hmark.
  { by apply renderInv_item. }
  destruct (includesBold (trim line)).
  { apply renderInv_push; [done..|]. cbn [sourceLine].
    by rewrite inlineText_renderParts, join_splitBold. }
  case_bool_decide as Hempty.
  { apply renderInv_push; [done..|]. cbn [sourceLine]. by rewrite Hempty. }
  case_bool_decide as Hlen.
  { by apply renderInv_push. }
  destruct (trim line); [done|simpl in Hlen; lia].
Qed.

Lemma renderInv_foldl lines processed st :
  renderInv processed st →
  renderInv (processed ++ lines) (foldl renderLine st lines).
Proof.
  revert processed st. induction lines as [|line lines IH]; intros processed st Hinv.
  - by rewrite app_nil_r.
  - simpl. rewrite (cons_middle line), app_assoc. apply IH. by apply renderInv_step.
Qed.

(** The elements returned are those pushed, plus the list still open. *)
Lemma renderContent_closed content :
  ∃ st, renderInv (splitLines content) st
        ∧ renderContent content = elements (closeList st).
Proof.
  exists (foldl renderLine {| elements := []; listItems := []; inList := false |}
            (splitLines content)).
  split; [apply (renderInv_foldl _ []), renderInv_empty|].
  pose proof (renderInv_foldl (splitLines content) [] _ renderInv_empty)
    as (Hoff & Hon & _).
  unfold renderContent, closeList. cbn zeta.
  destruct (inList _) eqn:Hin; [|done].
  specialize (Hon eq_refl). cbn [andb].
  rewrite bool_decide_eq_true_2; [done|].
  destruct (listItems _); [done|simpl; lia].
Qed.

Lemma splitLines_nonempty s : splitLines s ≠ [].
Proof.
  destruct s as [|c s]; simpl; [done|].
  destruct (c =? 10)%N; [done|]. by destruct (splitLines s).
Qed.

(** The model of [split('\n')] loses nothing: joining the lines with a
    newline gives the content back. *)
Lemma join_splitLines s : join [10%N] (splitLines s) = s.
Proof.
  induction s as [|c s IH]; [done|]. simpl.
  destruct (N.eqb_spec c 10) as [->|Hc].
  - pose proof (splitLines_nonempty s).
    destruct (splitLines s) as [|line lines]; [done|]. by rewrite <- IH.
  - pose proof (splitLines_nonempty s).
    destruct (splitLines s) as [|line lines]; [done|].
    by rewrite join_cons_head, IH.
Qed.

(** X10.  [renderContent] accounts for every line of its input: the
    number of list items plus the number of other elements it returns
    equals the number of lines of the content. *)
Theorem render_keeps_every_line (content : list N) :
  sum_list_with linesOf (renderContent content) = length (splitLines content).
Proof.
  destruct (renderContent_closed content)
    as (st & (Hoff & Hon & Hcount & _) & ->).
  unfold closeList. destruct (inList st) eqn:Hin; cbn [elements].
  - rewrite sum_list_with_app. simpl. lia.
  - rewrite (Hoff eq_refl) in Hcount. simpl in Hcount. lia.
Qed.

Lemma renderContent_lines content :
  renderContent content = renderLines (splitLines content).
Proof. reflexivity. Qed.

Lemma closeList_withPrefix rendered st :
  closeList (withPrefix rendered st) = withPrefix rendered (closeList st).
Proof.
  unfold closeList, withPrefix. destruct st as [els items [|]]; simpl; [|done].
  by rewrite app_assoc.
Qed.

Lemma push_withPrefix rendered element st :
  push element (withPrefix rendered st) = withPrefix rendered (push element st).
Proof. unfold push, withPrefix. simpl. by rewrite app_assoc. Qed.

(** Elements are only ever appended: what was pushed before does not
    influence how a line is rendered. *)
Lemma renderLine_withPrefix rendered st line :
  renderLine (withPrefix rendered st) line = withPrefix rendered (renderLine st line).
Proof.
  unfold renderLine.
  repeat match goal with
         | |- context [if ?b then _ else _] =>
             lazymatch b with
             | context [withPrefix] => fail
             | _ => destruct b
             end
         end;
    rewrite ?closeList_withPrefix, ?push_withPrefix; done.
Qed.

Lemma foldl_withPrefix rendered lines st :
  foldl renderLine (withPrefix rendered st) lines
  = withPrefix rendered (foldl renderLine st lines).
Proof.
  revert st. induction lines as [|line lines IH]; intros st; [done|].
  simpl. by rewrite renderLine_withPrefix, IH.
Qed.

Lemma finishList_withPrefix rendered st :
  finishList (withPrefix rendered st) = rendered ++ finishList st.
Proof.
  unfold finishList, withPrefix. simpl.
  destruct (inList st && _); [|done]. by rewrite app_assoc.
Qed.

Lemma closeList_closeList st : closeList (closeList st) = closeList st.
Proof. unfold closeList. by destruct st as [els items [|]]. Qed.

(** A line that is no list item first closes the open list. *)
Lemma renderLine_nonlist st line :
  isListLine line = false →
  renderLine st line = renderLine (closeList st) line
  ∧ inList (renderLine st line) = false.
Proof.
  unfold isListLine, renderLine. cbn zeta.
  destruct (startsWith (units "### ") (trim line));
    [intros _; rewrite closeList_closeList; split; [done|by destruct st as [? ? [|]]]|].
  destruct (startsWith (units "## ") (trim line));
    [intros _; rewrite closeList_closeList; split; [done|by destruct st as [? ? [|]]]|].
  destruct (startsWith (units "# ") (trim line));
    [intros _; rewrite closeList_closeList; split; [done|by destruct st as [? ? [|]]]|].
  destruct (startsWith (units "- ") (trim line) || startsWith (units "* ") (trim line));
    [done|intros _].
  destruct (includesBold (trim line));
    [rewrite closeList_closeList; split; [done|by destruct st as [? ? [|]]]|].
  case_bool_decide;
    [rewrite closeList_closeList; split; [done|by destruct st as [? ? [|]]]|].
  case_bool_decide;
    [rewrite closeList_closeList; split; [done|by destruct st as [? ? [|]]]|].
  destruct (trim line); [done|simpl in *; lia].
Qed.

(** A list line only adds its item to the open list. *)
Lemma renderLine_list st line :
  isListLine line = true →
  renderLine st line
  = {| elements := elements st;
       listItems := listItems st ++ [drop 2 (trim line)];
       inList := true |}.
Proof.
  unfold isListLine, renderLine. cbn zeta.
  destruct (startsWith (units "### ") (trim line)); [done|].
  destruct (startsWith (units "## ") (trim line)); [done|].
  destruct (startsWith (units "# ") (trim line)); [done|].
  destruct (startsWith (units "- ") (trim line) || startsWith (units "* ") (trim line))
    eqn:Hmark; [|done].
  intros _. by destruct (stripBullet_list_line _ Hmark) as [-> _].
Qed.

Lemma foldl_list_lines run st :
  Forall (λ line, isListLine line = true) run → run ≠ [] →
  foldl renderLine st run
  = {| elements := elements st;
       listItems := listItems st ++ map (λ line, drop 2 (trim line)) run;
       inList := true |}.
Proof.
  intros Hrun. revert st. induction Hrun as [|line run Hline Hrun IH]; intros st Hne; [done|].
  simpl. rewrite renderLine_list by done.
  destruct run as [|line' run]; [done|].
  rewrite IH by done. cbn [elements listItems inList]. by rewrite <- app_assoc.
Qed.

(** After a line that is no list item, or before any line, no list is
    open, and what has been pushed is what [renderLines] returns. *)
Lemma foldl_closed lines :
  (∀ line, last lines = Some line → isListLine line = false) →
  foldl renderLine {| elements := []; listItems := []; inList := false |} lines
  = {| elements := renderLines lines; listItems := []; inList := false |}.
Proof.
  intros Hlast. unfold renderLines.
  set (st := foldl renderLine {| elements := []; listItems := []; inList := false |} lines).
  assert (inList st = false) as Hin.
  { subst st. destruct lines as [|line lines _] using rev_ind; [done|].
    rewrite foldl_app. simpl. apply renderLine_nonlist, Hlast, last_snoc. }
  pose proof (renderInv_foldl lines [] _ renderInv_empty) as (Hoff & _).
  fold st in Hoff. specialize (Hoff Hin).
  unfold finishList. rewrite Hin. simpl.
  destruct st as [els items inl]; simpl in *. by subst.
Qed.

(** X11.  Consecutive list lines are grouped.  Wherever the lines of the
    content are [before ++ run ++ after] with [run] a non-empty run of
    list lines that no list line precedes or follows directly, the
    rendering is that of [before], then one [<ul>] with the items of
    [run] in order, then that of [after].  No [<ul>] that
    [renderContent] returns is empty and no two are adjacent. *)
Theorem render_groups_lists (content : list N) :
  (UL [] ∉ renderContent content)
  ∧ noAdjacentLists (renderContent content) = true
  ∧ ∀ before run after,
      splitLines content = before ++ run ++ after →
      run ≠ [] →
      Forall (λ line, isListLine line = true) run →
      (∀ line, last before = Some line → isListLine line = false) →
      (∀ line, head after = Some line → isListLine line = false) →
      renderContent content
      = renderLines before
        ++ [UL (map (λ line, drop 2 (trim line)) run)]
        ++ renderLines after.
Proof.
  destruct (renderContent_closed content)
    as (st & (Hoff & Hon & _ & _ & _ & Hul & Hadj & Hlast) & Hrender).
  assert (Forall (λ element, (1 ≤ linesOf element)%nat) (elements (closeList st))
          ∧ noAdjacentLists (elements (closeList st)) = true) as [Hall Hno].
  { unfold closeList. destruct (inList st) eqn:Hin; cbn [elements]; [|done].
    split.
    - rewrite Forall_app. split; [done|]. constructor; [|done].
      specialize (Hon eq_refl). simpl. destruct (listItems st); [done|simpl; lia].
    - by rewrite noAdjacentLists_snoc, Hadj, Hlast. }
  split; [|split].
  - rewrite Hrender. intros Hin.
    rewrite Forall_forall in Hall. specialize (Hall _ Hin). simpl in Hall. lia.
  - by rewrite Hrender.
  - clear. intros before run after Hlines Hne Hrun Hbefore Hafter.
    rewrite renderContent_lines, Hlines. unfold renderLines at 1.
    rewrite foldl_app, foldl_closed by done.
    rewrite foldl_app, (foldl_list_lines run) by done.
    cbn [elements listItems inList app].
    set (items := map (λ line, drop 2 (trim line)) run).
    assert (items ≠ []) as Hitems by (subst items; by destruct run).
    destruct after as [|line rest].
    + change (renderLines []) with (@nil Element).
      cbn [foldl]. unfold finishList. cbn [elements listItems inList andb].
      by rewrite bool_decide_eq_true_2 by (destruct items; [done|simpl; lia]).
    + cbn [foldl].
      destruct (renderLine_nonlist
                  {| elements := renderLines before; listItems := items; inList := true |}
                  line (Hafter line eq_refl)) as [-> _].
      replace (closeList {| elements := renderLines before; listItems := items;
                            inList := true |})
        with (withPrefix (renderLines before ++ [UL items])
                {| elements := []; listItems := []; inList := false |})
        by (unfold withPrefix, closeList; simpl; by rewrite app_nil_r).
      rewrite renderLine_withPrefix, foldl_withPrefix, finishList_withPrefix.
      by rewrite <- app_assoc.
Qed.

Lemma render_groups_lists_witness :
  let content := units "- a" ++ [10%N] ++ units "* b" ++ [10%N] ++ units "para" in
  let before := @nil (list N) in
  let run := [units "- a"; units "* b"] in
  let after := [units "para"] in
  splitLines content = before ++ run ++ after
  ∧ renderContent content
    = renderLines before
      ++ [UL (map (λ line, drop 2 (trim line)) run)]
      ++ renderLines after.
Proof.
  intros content before run after.
  assert (splitLines content = before ++ run ++ after) as Hlines
    by (vm_compute; reflexivity).
  split; [exact Hlines|].
  apply (proj2 (proj2 (render_groups_lists content)) before run after Hlines).
  - done.
  - repeat constructor.
  - intros line Hlast. discriminate Hlast.
  - intros line [= <-]. vm_compute. reflexivity.
Defined.

(** X12.  The items of the lists that [renderContent] returns are, in
    order, the list lines of the content (trimmed lines that start with
    ["- "] or ["* "] and are no heading), each without its two-character
    marker. *)
Theorem render_list_items (content : list N) :
  concat (map itemsOf (renderContent content))
  = map (λ line, drop 2 (trim line))
        (filter (λ line, isListLine line = true) (splitLines content)).
Proof.
  destruct (renderContent_closed content)
    as (st & (Hoff & _ & _ & Hitems & _) & ->).
  rewrite <- Hitems. unfold closeList. destruct (inList st) eqn:Hin; cbn [elements].
  - rewrite map_app, concat_app. simpl. by rewrite app_nil_r.
  - by rewrite (Hoff eq_refl), app_nil_r.
Qed.

(** X13.  Apart from surrounding white space, rendering loses no text of
    the other lines: the headings, paragraphs and line breaks that
    [renderContent] returns, with the heading marker put back and the
    pieces of a paragraph joined by ['**'], are in order the trimmed
    lines of the content that are not list lines. *)
Theorem render_restores_lines (content : list N) :
  omap sourceLine (renderContent content)
  = map trim (filter (λ line, isListLine line = false) (splitLines content)).
Proof.
  destruct (renderContent_closed content)
    as (st & (_ & _ & _ & _ & Hsource & _) & ->).
  rewrite <- Hsource. unfold closeList. destruct (inList st); cbn [elements]; [|done].
  rewrite omap_app. simpl. by rewrite app_nil_r.
Qed.

(** ** From the handler's reply to the page *)

Lemma responseText_no_text content :
  Forall (λ block, block_type block ≠ "text") content → responseText content = [].
Proof.
  intros Hnone. unfold responseText.
  replace (filter (λ block, block_type block = "text") content) with (@nil ContentBlock);
    [done|].
  induction Hnone as [|block rest Hb _ IH]; [done|].
  rewrite filter_cons_False by exact Hb. exact IH.
Qed.

(** X15.  When the API call resolves with a message that has no text
    block, the handler still answers 200 with [success: true] and an
    empty [analysis], and the page reports
    "No analysis returned from server". *)
Theorem empty_answer_is_reported
    buildAnalysisPrompt api apiKey now req requestLog call content :
  let outcome := handler buildAnalysisPrompt api apiKey now req requestLog in
  apiCalls outcome = [call] →
  api call = Resolved content →
  Forall (λ block, block_type block ≠ "text") content →
  reply outcome = Json 200 (Success [])
  ∧ viewOf 200 (Success []) = ShowError "No analysis returned from server".
Proof.
  intros outcome Hcall Hres Hnone. split; [|done].
  pose proof (responseText_no_text content Hnone) as Htext.
  revert Hcall. subst outcome.
  handler_cases; intros [= <-]; rewrite Hres in *; simplify_eq.
  by rewrite Htext.
Qed.

Lemma empty_answer_is_reported_witness :
  let fields := {| primaryKeyword := Str (units "k");
                   city := Str (units "c"); state := Str (units "s");
                   highRankingUrl := Str (units "h");
                   lowRankingUrl := Str (units "l") |} in
  let req := {| method := "POST"; forwardedFor := Some "203.0.113.9";
                remoteAddress := None; body := inr fields |} in
  let content := [ {| block_type := "tool_use"; block_text := None |} ] in
  let api := λ _ : ApiCall, Resolved content in
  let call := {| call_apiKey := "key"; call_model := "claude-sonnet-4-20250514";
                 call_max_tokens := 4096; call_temperature := "0.3";
                 call_prompt := [] |} in
  let outcome := handler (λ _, []) api (Some "key") 5 req ∅ in
  apiCalls outcome = [call]
  ∧ Forall (λ block, block_type block ≠ "text") content
  ∧ reply outcome = Json 200 (Success []).
Proof.
  intros fields req content api call outcome.
  assert (apiCalls outcome = [call]) as Hcall by (vm_compute; reflexivity).
  assert (Forall (λ block, block_type block ≠ "text") content) as Hnone.
  { constructor; [|constructor]. intros H. discriminate H. }
  split; [exact Hcall|]. split; [exact Hnone|].
  exact (proj1 (empty_answer_is_reported (λ _, []) api (Some "key") 5 req ∅
                  call content Hcall eq_refl Hnone)).
Defined.

(** ** The section parser *)

Lemma star_defined greedy class s cap k :
  (∀ s' c, k s' c ≠ Some None) → star greedy class s cap k ≠ Some None.
Proof.
  intros Hk. induction s as [|x s IH]; simpl; [apply Hk|].
  destruct (class x); [|apply Hk]. destruct greedy.
  - destruct (star true class s cap k) as [[?|]|]; [done|done|apply Hk].
  - pose proof (Hk (x :: s) cap). by destruct (k (x :: s) cap) as [[?|]|].
Qed.

Lemma star_keeps greedy class s cap k :
  (∀ s' c, is_Some c → k s' c ≠ Some None) → is_Some cap →
  star greedy class s cap k ≠ Some None.
Proof.
  intros Hk Hcap. induction s as [|x s IH]; simpl; [by apply Hk|].
  destruct (class x); [|by apply Hk]. destruct greedy.
  - destruct (star true class s cap k) as [[?|]|]; [done|done|by apply Hk].
  - pose proof (Hk (x :: s) cap Hcap). by destruct (k (x :: s) cap) as [[?|]|].
Qed.

(** With a capture already set, a match never ends without one. *)
Lemma matchAt_keeps r s cap k :
  (∀ s' c, is_Some c → k s' c ≠ Some None) → is_Some cap →
  matchAt r s cap k ≠ Some None.
Proof.
  revert s cap k.
  induction r as [literal|greedy class|r1 IH1 r2 IH2|r1 IH1 r2 IH2|r IH|r IH|];
    intros s cap k Hk Hcap; simpl.
  - destruct (startsWithFolded literal s); [by apply Hk|done].
  - by apply star_keeps.
  - apply IH1; [|done]. intros s' c Hc. by apply IH2.
  - pose proof (IH1 s cap k Hk Hcap).
    destruct (matchAt r1 s cap k) as [[?|]|]; [done|done|by apply IH2].
  - apply IH; [|done]. intros s' c _. by apply Hk.
  - pose proof (IH s cap (λ _ cap', Some cap')) as Hin.
    destruct (matchAt r s cap (λ _ cap', Some cap')) as [[captured|]|]; [|exfalso|done].
    + by apply Hk.
    + apply Hin; [|done..]. intros _ c [x ->]. done.
  - destruct s; [by apply Hk|done].
Qed.

Lemma matchAt_defined r s cap k :
  (∀ s' c, k s' c ≠ Some None) → matchAt r s cap k ≠ Some None.
Proof.
  revert s cap k.
  induction r as [literal|greedy class|r1 IH1 r2 IH2|r1 IH1 r2 IH2|r IH|r IH|];
    intros s cap k Hk; simpl.
  - destruct (startsWithFolded literal s); [apply Hk|done].
  - by apply star_defined.
  - apply IH1. intros s' c. by apply IH2.
  - pose proof (IH1 s cap k Hk).
    destruct (matchAt r1 s cap k) as [[?|]|]; [done|done|by apply IH2].
  - apply IH. intros s' c. apply Hk.
  - destruct (matchAt r s cap (λ _ cap', Some cap')) as [cap'|]; [apply Hk|done].
  - destruct s; [apply Hk|done].
Qed.

(** In a pattern [head (group) tail] the group takes part in every
    match. *)
Lemma search_captures head group tail s :
  search (Seq head (Seq (Group group) tail)) s ≠ Some None.
Proof.
  assert (∀ s, matchAt (Seq head (Seq (Group group) tail)) s None (λ _ cap, Some cap)
               ≠ Some None) as Hat.
  { intros s0. simpl. apply matchAt_defined. intros s' c.
    apply matchAt_defined. intros s'' c''.
    apply matchAt_keeps; [|done]. intros _ c0 [x ->]. done. }
  induction s as [|x s IH]; simpl.
  - pose proof (Hat []) as H0. simpl in H0.
    by destruct (matchAt head [] None _) as [[?|]|].
  - pose proof (Hat (x :: s)) as H0. simpl in H0.
    by destruct (matchAt head (x :: s) None _) as [[?|]|].
Qed.

(** X16.  [parseAnalysisOutput] never throws: in each of the three
    patterns the capture group takes part in every match, so [trim] is
    never called on [undefined]; every text yields three sections. *)
Theorem parse_never_throws (text : list N) :
  is_Some (parseAnalysisOutput text).
Proof.
  unfold parseAnalysisOutput, sectionOf.
  pose proof (search_captures (headerLine "A" "Algorithmically Important Content")
                (Star false anyChar) (Lookahead (Alt (headerMark "B") EndOfInput)) text) as HA.
  pose proof (search_captures (headerLine "B" "Missing or Weak Content Signals")
                (Star false anyChar) (Lookahead (Alt (headerMark "C") EndOfInput)) text) as HB.
  pose proof (search_captures (headerLine "C" "Search-Engine-Optimized Content Additions")
                (Star false anyChar) EndOfInput text) as HC.
  fold sectionARegex in HA. fold sectionBRegex in HB. fold sectionCRegex in HC.
  destruct (search sectionARegex text) as [[?|]|]; [|done|];
    destruct (search sectionBRegex text) as [[?|]|]; try done;
    destruct (search sectionCRegex text) as [[?|]|]; try done; eauto.
Qed.

Lemma canonicalize_hash c : canonicalize c = 35%N ↔ c = 35%N.
Proof.
  unfold canonicalize.
  destruct (N.leb_spec 97 c); destruct (N.leb_spec c 122); simpl; lia.
Qed.

Lemma canonicalize_eqb_hash x :
  (canonicalize 35 =? canonicalize x)%N = (35 =? x)%N.
Proof.
  change (canonicalize 35) with 35%N.
  destruct (N.eqb_spec 35 x) as [<-|Hx]; [done|].
  apply N.eqb_neq. intros Heq. symmetry in Heq.
  apply (proj1 (canonicalize_hash x)) in Heq. congruence.
Qed.

Lemma startsWithFolded_hashes s :
  startsWithFolded (units "##") s = startsWith (units "##") s.
Proof.
  change (units "##") with [35; 35]%N.
  destruct s as [|x [|y s]]; cbn [startsWithFolded startsWith];
    by rewrite ?canonicalize_eqb_hash.
Qed.

(** The three patterns start with [##]. *)
Lemma headerLine_needs_hashes letter title rest s cap k :
  startsWith (units "##") s = false →
  matchAt (Seq (headerLine letter title) rest) s cap k = None.
Proof.
  intros Hno. cbn [matchAt headerLine headerMark].
  by rewrite startsWithFolded_hashes, Hno.
Qed.

Lemma search_no_hashes letter title rest s :
  includes (units "##") s = false →
  search (Seq (headerLine letter title) rest) s = None.
Proof.
  induction s as [|x s IH]; intros Hinc.
  - cbn [search]. by rewrite headerLine_needs_hashes.
  - cbn [includes] in Hinc. apply orb_false_elim in Hinc as [Hhere Hlater].
    cbn [search]. rewrite headerLine_needs_hashes by done. by apply IH.
Qed.

(** X17.  A text without two adjacent ['#'] has no section: all three
    results are the fallback messages. *)
Theorem parse_without_headers (text : list N) :
  includes (units "##") text = false →
  parseAnalysisOutput text
  = Some {| sectionA := units "No content found for Section A";
            sectionB := units "No content found for Section B";
            sectionC := units "No content found for Section C" |}.
Proof.
  intros Hno. unfold parseAnalysisOutput, sectionARegex, sectionBRegex, sectionCRegex.
  by rewrite !search_no_hashes.
Qed.

Lemma parse_without_headers_witness :
  includes (units "##") (units "Sorry, I cannot analyse # these pages.") = false
  ∧ parseAnalysisOutput (units "Sorry, I cannot analyse # these pages.")
    = Some {| sectionA := units "No content found for Section A";
              sectionB := units "No content found for Section B";
              sectionC := units "No content found for Section C" |}.
Proof.
  assert (includes (units "##") (units "Sorry, I cannot analyse # these pages.") = false)
    as Hno by (vm_compute; reflexivity).
  split; [exact Hno|].
  exact (parse_without_headers (units "Sorry, I cannot analyse # these pages.") Hno).
Defined.

(** ** Matching a text in the requested format *)

Lemma startsWithFolded_app literal s : startsWithFolded literal (literal ++ s) = true.
Proof. induction literal as [|a literal IH]; [done|]. simpl. by rewrite N.eqb_refl. Qed.

Lemma matchAt_Chars literal s cap k :
  matchAt (Chars literal) (literal ++ s) cap k = k s cap.
Proof. simpl. by rewrite startsWithFolded_app, drop_app_length. Qed.

(** A greedy star over a run [w] of the class that ends before [s] hands
    [s] to the continuation, when the continuation accepts it. *)
Lemma star_greedy_run class w s cap k result :
  Forall (λ c, class c = true) w →
  match s with c :: _ => class c = false | [] => True end →
  k s cap = Some result →
  star true class (w ++ s) cap k = Some result.
Proof.
  intros Hw Hs Hk. induction Hw as [|c w Hc _ IH]; simpl.
  - destruct s as [|c s]; simpl; [done|]. by rewrite Hs.
  - by rewrite Hc, IH.
Qed.

(** A lazy star stops at the first position that the continuation
    accepts. *)
Lemma star_lazy_run class u s cap k result :
  Forall (λ c, class c = true) u →
  (∀ t, t ≠ [] → t `suffix_of` u → k (t ++ s) cap = None) →
  k s cap = Some result →
  star false class (u ++ s) cap k = Some result.
Proof.
  intros Hu Hfail Hk. induction Hu as [|c u Hc _ IH]; simpl.
  - destruct s as [|c s]; simpl; [done|]. rewrite Hk. by destruct (class c).
  - rewrite Hc.
    pose proof (Hfail (c :: u) ltac:(done) ltac:(done)) as Hhere.
    simpl in Hhere. rewrite Hhere.
    apply IH. intros t Ht Hsuf. apply Hfail; [done|]. by apply suffix_cons_r.
Qed.

Lemma matchAt_Seq r1 r2 s cap k :
  matchAt (Seq r1 r2) s cap k = matchAt r1 s cap (λ s' cap', matchAt r2 s' cap' k).
Proof. reflexivity. Qed.

Lemma matchAt_Star greedy class s cap k :
  matchAt (Star greedy class) s cap k = star greedy class s cap k.
Proof. reflexivity. Qed.

Lemma matchAt_Alt r1 r2 s cap k :
  matchAt (Alt r1 r2) s cap k
  = match matchAt r1 s cap k with
    | Some result => Some result
    | None => matchAt r2 s cap k
    end.
Proof. reflexivity. Qed.

Lemma matchAt_Group r s cap k :
  matchAt (Group r) s cap k
  = matchAt r s cap (λ s' _, k s' (Some (take (length s - length s') s))).
Proof. reflexivity. Qed.

Lemma matchAt_Lookahead r s cap k :
  matchAt (Lookahead r) s cap k
  = match matchAt r s cap (λ _ cap', Some cap') with
    | Some cap' => k s cap'
    | None => None
    end.
Proof. reflexivity. Qed.

Lemma headerMark_match letter s cap k result :
  match units letter with c :: _ => isWhiteSpace c = false | [] => False end →
  k s cap = Some result →
  matchAt (headerMark letter)
    (units "##" ++ [32%N] ++ (units letter ++ units ")") ++ s) cap k
  = Some result.
Proof.
  intros Hletter Hk. unfold headerMark.
  rewrite matchAt_Seq, matchAt_Chars, matchAt_Seq, matchAt_Star.
  apply star_greedy_run.
  - by constructor.
  - destruct (units letter); [done|exact Hletter].
  - by rewrite matchAt_Chars.
Qed.

Lemma headerLine_match letter title line s cap k result :
  match units letter with c :: _ => isWhiteSpace c = false | [] => False end →
  match units title with c :: _ => isWhiteSpace c = false | [] => False end →
  Forall (λ c, c ≠ 10%N) line →
  k s cap = Some result →
  matchAt (headerLine letter title)
    (units "##" ++ [32%N] ++ (units letter ++ units ")") ++ [32%N] ++ units title
       ++ line ++ [10%N] ++ s) cap k
  = Some result.
Proof.
  intros Hletter Htitle Hline Hk. unfold headerLine.
  rewrite matchAt_Seq. apply headerMark_match; [done|].
  rewrite matchAt_Seq, matchAt_Star.
  apply star_greedy_run.
  - by constructor.
  - destruct (units title); [done|exact Htitle].
  - rewrite matchAt_Seq, matchAt_Chars, matchAt_Seq, matchAt_Star.
    apply star_greedy_run.
    + eapply Forall_impl; [exact Hline|]. intros c Hc. unfold notNewline.
      by apply negb_true_iff, N.eqb_neq.
    + done.
    + by rewrite (matchAt_Chars [10%N]).
Qed.

(** Inside a text without ['#'] the lookahead finds neither a header nor
    the end of the input. *)
Lemma lookahead_fails letter c t cap k :
  c ≠ 35%N →
  matchAt (Lookahead (Alt (headerMark letter) EndOfInput)) (c :: t) cap k = None.
Proof.
  intros Hc. unfold headerMark. cbn [matchAt].
  rewrite startsWithFolded_hashes. change (units "##") with [35; 35]%N.
  cbn [startsWith]. by rewrite (proj2 (N.eqb_neq 35 c)).
Qed.

Lemma suffix_Forall {A} (P : A → Prop) (t l : list A) :
  t `suffix_of` l → Forall P l → Forall P t.
Proof. intros [u ->] Hall. by apply Forall_app in Hall as [_ ?]. Qed.

(** The lazy group followed by the lookahead captures a text without
    ['#'] up to the next header. *)
Lemma capture_until_header letter body s cap :
  match units letter with c :: _ => isWhiteSpace c = false | [] => False end →
  Forall (λ c, c ≠ 35%N) body →
  matchAt (Seq (Group (Star false anyChar))
               (Lookahead (Alt (headerMark letter) EndOfInput)))
    (body ++ units "##" ++ [32%N] ++ (units letter ++ units ")") ++ s)
    cap (λ _ cap', Some cap')
  = Some (Some body).
Proof.
  intros Hletter Hbody.
  set (tail := units "##" ++ [32%N] ++ (units letter ++ units ")") ++ s).
  rewrite matchAt_Seq, matchAt_Group, matchAt_Star.
  apply star_lazy_run.
  - by apply Forall_true.
  - intros t Ht Hsuf.
    pose proof (suffix_Forall _ _ _ Hsuf Hbody) as Hall.
    destruct t as [|c t]; [done|]. apply Forall_cons in Hall as [Hc _].
    by apply lookahead_fails.
  - rewrite matchAt_Lookahead, matchAt_Alt. unfold tail at 1.
    rewrite (headerMark_match letter s _ (λ _ cap', Some cap') _ Hletter eq_refl).
    f_equal. f_equal.
    rewrite length_app, Nat.add_sub. apply take_app_length.
Qed.

(** The lazy group followed by [$] captures everything that is left. *)
Lemma capture_until_end body cap :
  matchAt (Seq (Group (Star false anyChar)) EndOfInput) body cap (λ _ cap', Some cap')
  = Some (Some body).
Proof.
  rewrite matchAt_Seq, matchAt_Group, matchAt_Star.
  rewrite <- (app_nil_r body) at 1.
  apply star_lazy_run.
  - by apply Forall_true.
  - intros t Ht _. rewrite app_nil_r. by destruct t.
  - simpl. rewrite Nat.sub_0_r. by rewrite firstn_all.
Qed.

Lemma search_found r s cap :
  matchAt r s None (λ _ cap', Some cap') = Some cap → search r s = Some cap.
Proof. intros Hat. destruct s; simpl; by rewrite Hat. Qed.

Lemma search_cons_skip r x s :
  matchAt r (x :: s) None (λ _ cap', Some cap') = None →
  search r (x :: s) = search r s.
Proof. intros Hat. simpl. by rewrite Hat. Qed.

Lemma search_skip_hashfree letter title rest p s :
  Forall (λ c, c ≠ 35%N) p →
  search (Seq (headerLine letter title) rest) (p ++ s)
  = search (Seq (headerLine letter title) rest) s.
Proof.
  induction 1 as [|c p Hc _ IH]; [done|].
  rewrite <- app_comm_cons, search_cons_skip; [exact IH|].
  apply headerLine_needs_hashes.
  change (units "##") with [35; 35]%N. cbn [startsWith].
  by rewrite (proj2 (N.eqb_neq 35 c)).
Qed.

Ltac skip_header :=
  match goal with
  | |- search ?r (?header ++ ?tail) = _ =>
      let cells := eval vm_compute in header in
      change (header ++ tail) with (cells ++ tail)
  end;
  cbn [app];
  repeat (rewrite search_cons_skip by (vm_compute; reflexivity));
  reflexivity.

Lemma sectionB_skips_headerA tail :
  search sectionBRegex (units "## A) Algorithmically Important Content" ++ tail)
  = search sectionBRegex tail.
Proof. skip_header. Qed.

Lemma sectionC_skips_headerA tail :
  search sectionCRegex (units "## A) Algorithmically Important Content" ++ tail)
  = search sectionCRegex tail.
Proof. skip_header. Qed.

Lemma sectionC_skips_headerB tail :
  search sectionCRegex (units "## B) Missing or Weak Content Signals" ++ tail)
  = search sectionCRegex tail.
Proof. skip_header. Qed.

Lemma headerLine_matches_text letter title line s cap k result :
  match units letter with c :: _ => isWhiteSpace c = false | [] => False end →
  match units title with c :: _ => isWhiteSpace c = false | [] => False end →
  Forall (λ c, c ≠ 10%N) line →
  k s cap = Some result →
  matchAt (headerLine letter title) (headerText letter title ++ line ++ [10%N] ++ s) cap k
  = Some result.
Proof.
  intros Hletter Htitle Hline Hk. unfold headerText.
  set (mark := units letter ++ units ")").
  rewrite <- !app_assoc. subst mark.
  by apply headerLine_match.
Qed.

Lemma capture_until_headerText letter title body s cap :
  match units letter with c :: _ => isWhiteSpace c = false | [] => False end →
  Forall (λ c, c ≠ 35%N) body →
  matchAt (Seq (Group (Star false anyChar))
               (Lookahead (Alt (headerMark letter) EndOfInput)))
    (body ++ headerText letter title ++ s) cap (λ _ cap', Some cap')
  = Some (Some body).
Proof.
  intros Hletter Hbody. unfold headerText.
  set (mark := units letter ++ units ")").
  rewrite <- !app_assoc. subst mark.
  by apply capture_until_header.
Qed.

Lemma sectionA_skips_hashfree p s :
  Forall (λ c, c ≠ 35%N) p → search sectionARegex (p ++ s) = search sectionARegex s.
Proof. apply search_skip_hashfree. Qed.

Lemma sectionB_skips_hashfree p s :
  Forall (λ c, c ≠ 35%N) p → search sectionBRegex (p ++ s) = search sectionBRegex s.
Proof. apply search_skip_hashfree. Qed.

Lemma sectionC_skips_hashfree p s :
  Forall (λ c, c ≠ 35%N) p → search sectionCRegex (p ++ s) = search sectionCRegex s.
Proof. apply search_skip_hashfree. Qed.

(** X18.  A text in the format the prompt asks for is taken apart into
    its three sections: if the three headers are written
    [## A) Algorithmically Important Content], [## B) Missing or Weak
    Content Signals] and [## C) Search-Engine-Optimized Content
    Additions], each followed by the rest of its line, and no ['#']
    occurs before the first header, in the rest of the header lines or
    in the bodies of sections A and B, then the three results are the
    trimmed bodies; the body of section C runs to the end of the text
    and may hold anything. *)
Theorem parse_recovers_sections (pre lineA a lineB b lineC c : list N) :
  Forall (λ x, x ≠ 35%N) (pre ++ lineA ++ a ++ lineB ++ b ++ lineC) →
  Forall (λ x, x ≠ 10%N) (lineA ++ lineB ++ lineC) →
  parseAnalysisOutput
    (pre ++ units "## A) Algorithmically Important Content" ++ lineA ++ [10%N] ++ a
     ++ units "## B) Missing or Weak Content Signals" ++ lineB ++ [10%N] ++ b
     ++ units "## C) Search-Engine-Optimized Content Additions" ++ lineC ++ [10%N] ++ c)
  = Some {| sectionA := trim a; sectionB := trim b; sectionC := trim c |}.
Proof.
  rewrite !Forall_app.
  intros (Hpre & HlineA & Ha & HlineB & Hb & HlineC) (HnlA & HnlB & HnlC).
  assert (Forall (λ x : N, x ≠ 35%N) [10%N]) as Hnl by (by constructor).
  unfold parseAnalysisOutput.
  set (restC := lineC ++ [10%N] ++ c).
  set (restB := lineB ++ [10%N] ++ b
                ++ units "## C) Search-Engine-Optimized Content Additions" ++ restC).
  set (restA := lineA ++ [10%N] ++ a
                ++ units "## B) Missing or Weak Content Signals" ++ restB).
  replace (search sectionARegex _) with (Some (Some a)); cycle 1.
  { symmetry. rewrite sectionA_skips_hashfree by done.
    unfold sectionARegex. apply search_found. rewrite matchAt_Seq. subst restA restB.
    change (units "## A) Algorithmically Important Content")
      with (headerText "A" "Algorithmically Important Content").
    change (units "## B) Missing or Weak Content Signals")
      with (headerText "B" "Missing or Weak Content Signals").
    apply headerLine_matches_text; [done..|].
    by apply capture_until_headerText. }
  replace (search sectionBRegex _) with (Some (Some b)); cycle 1.
  { symmetry. rewrite sectionB_skips_hashfree by done.
    rewrite sectionB_skips_headerA. subst restA.
    rewrite !sectionB_skips_hashfree by done.
    unfold sectionBRegex.
    apply search_found. rewrite matchAt_Seq. subst restB restC.
    change (units "## B) Missing or Weak Content Signals")
      with (headerText "B" "Missing or Weak Content Signals").
    change (units "## C) Search-Engine-Optimized Content Additions")
      with (headerText "C" "Search-Engine-Optimized Content Additions").
    apply headerLine_matches_text; [done..|].
    by apply capture_until_headerText. }
  replace (search sectionCRegex _) with (Some (Some c)); [done|].
  symmetry. rewrite sectionC_skips_hashfree by done.
  rewrite sectionC_skips_headerA. subst restA.
  rewrite !sectionC_skips_hashfree by done.
  rewrite sectionC_skips_headerB. subst restB.
  rewrite !sectionC_skips_hashfree by done.
  unfold sectionCRegex.
  apply search_found. rewrite matchAt_Seq. subst restC.
  change (units "## C) Search-Engine-Optimized Content Additions")
    with (headerText "C" "Search-Engine-Optimized Content Additions").
  apply headerLine_matches_text; [done..|].
  apply capture_until_end.
Qed.

Lemma parse_recovers_sections_witness :
  let pre := units "Here is the analysis. " in
  let lineA := units " on the High-Ranking Page" in
  let a := [10%N] ++ units "- practice areas " ++ [10%N] in
  let lineB := units " on the Low-Ranking Page" in
  let b := units "- no FAQ" ++ [10%N] in
  let lineC := @nil N in
  let c := units "### Suggested Heading (H2)" in
  Forall (λ x, x ≠ 35%N) (pre ++ lineA ++ a ++ lineB ++ b ++ lineC)
  ∧ Forall (λ x, x ≠ 10%N) (lineA ++ lineB ++ lineC)
  ∧ parseAnalysisOutput
      (pre ++ units "## A) Algorithmically Important Content" ++ lineA ++ [10%N] ++ a
       ++ units "## B) Missing or Weak Content Signals" ++ lineB ++ [10%N] ++ b
       ++ units "## C) Search-Engine-Optimized Content Additions" ++ lineC ++ [10%N] ++ c)
    = Some {| sectionA := trim a; sectionB := trim b; sectionC := trim c |}.
Proof.
  intros pre lineA a lineB b lineC c.
  assert (Forall (λ x, x ≠ 35%N) (pre ++ lineA ++ a ++ lineB ++ b ++ lineC)) as Hhash.
  { apply Forall_forall. intros x Hx Heq. subst x. revert Hx. vm_compute.
    intros Hx. repeat (apply elem_of_cons in Hx as [Hx|Hx]; [discriminate Hx|]).
    by apply elem_of_nil in Hx. }
  assert (Forall (λ x, x ≠ 10%N) (lineA ++ lineB ++ lineC)) as Hnl.
  { apply Forall_forall. intros x Hx Heq. subst x. revert Hx. vm_compute.
    intros Hx. repeat (apply elem_of_cons in Hx as [Hx|Hx]; [discriminate Hx|]).
    by apply elem_of_nil in Hx. }
  split; [exact Hhash|]. split; [exact Hnl|].
  exact (parse_recovers_sections pre lineA a lineB b lineC c Hhash Hnl).
Defined.

(** ** The identity is taken from the request *)

(** X19.  The caller's identity is the [x-forwarded-for] header whenever
    that header is a non-empty string, whatever the socket address is;
    so a POST that carries a header value not yet in the rate limiter's
    map is never answered with 429. *)
Theorem fresh_forwarded_for_is_admitted
    buildAnalysisPrompt api apiKey now req requestLog header :
  method req = "POST" →
  forwardedFor req = Some header →
  header ≠ "" →
  requestLog !! header = None →
  identityOf req = header
  ∧ replyStatus (reply (handler buildAnalysisPrompt api apiKey now req requestLog)) ≠ 429.
Proof.
  intros Hpost Hfwd Hne Hfresh.
  assert (identityOf req = header) as Hid.
  { unfold identityOf, clientIp, truthy. rewrite Hfwd.
    destruct (String.eqb_spec header ""); [done|]. done. }
  split; [exact Hid|].
  assert ((checkRateLimit now (identityOf req) requestLog).1 = true) as Hok.
  { rewrite Hid, checkRateLimit_limiter. apply limiter_admit_iff.
    unfold requestsOf. rewrite Hfresh. simpl. unfold MAX_REQUESTS_PER_HOUR. lia. }
  revert Hok. unfold identityOf. handler_cases; (done || congruence).
Qed.

Lemma fresh_forwarded_for_is_admitted_witness :
  let req := {| method := "POST"; forwardedFor := Some "anything";
                remoteAddress := Some "198.51.100.4"; body := inl "no body" |} in
  let full := (run checkRateLimit (replicate 20 (1000, "198.51.100.4")) ∅).2 in
  method req = "POST"
  ∧ forwardedFor req = Some "anything"
  ∧ "anything" ≠ ""
  ∧ full !! "anything" = None
  ∧ replyStatus (reply (handler (λ _, []) (λ _, Resolved []) (Some "key") 1000 req full))
    ≠ 429.
Proof.
  intros req full.
  assert ("anything" ≠ "") as Hne by (intros H; discriminate H).
  assert (full !! "anything" = None) as Hfresh by (vm_compute; reflexivity).
  split; [reflexivity|]. split; [reflexivity|]. split; [exact Hne|].
  split; [exact Hfresh|].
  exact (proj2 (fresh_forwarded_for_is_admitted (λ _, []) (λ _, Resolved [])
                  (Some "key") 1000 req full "anything"
                  eq_refl eq_refl Hne Hfresh)).
Defined.

(** ** From the reply to the page state *)

Lemma parseAnalysisOutput_sections text :
  ∃ sections,
    parseAnalysisOutput text = Some sections
    ∧ sectionOf (search sectionARegex text) "No content found for Section A"
      = Some (sectionA sections)
    ∧ sectionOf (search sectionBRegex text) "No content found for Section B"
      = Some (sectionB sections)
    ∧ sectionOf (search sectionCRegex text) "No content found for Section C"
      = Some (sectionC sections).
Proof.
  unfold parseAnalysisOutput, sectionOf.
  pose proof (search_captures (headerLine "A" "Algorithmically Important Content")
                (Star false anyChar) (Lookahead (Alt (headerMark "B") EndOfInput)) text) as HA.
  pose proof (search_captures (headerLine "B" "Missing or Weak Content Signals")
                (Star false anyChar) (Lookahead (Alt (headerMark "C") EndOfInput)) text) as HB.
  pose proof (search_captures (headerLine "C" "Search-Engine-Optimized Content Additions")
                (Star false anyChar) EndOfInput text) as HC.
  fold sectionARegex in HA. fold sectionBRegex in HB. fold sectionCRegex in HC.
  destruct (search sectionARegex text) as [[?|]|]; [|done|];
    destruct (search sectionBRegex text) as [[?|]|]; try done;
    destruct (search sectionCRegex text) as [[?|]|]; try done;
    eexists; repeat split; reflexivity.
Qed.

Lemma pageStateOf_success text :
  text ≠ [] →
  pageStateOf 200 (Success text)
  = match parseAnalysisOutput text with
    | Some sections => ResultSet sections text
    | None => ParseThrew
    end.
Proof. intros Hne. by destruct text. Qed.

(** X14.  When the handler's JSON reply reaches the page,
    [handleFormSubmit] either sets the error to one of seven fixed
    messages, or sets the result to the three sections that
    [parseAnalysisOutput] finds in the text of a resolved API call,
    which is then not empty.  Each section is the trimmed capture of
    its pattern or its "No content found" fallback; these sections are
    what [AnalysisOutput] renders ([renderedSections]), the text itself
    is only stored as [rawOutput].  So an answer without the three
    headers is shown as the three fallbacks.  The [details] that the
    handler relays from a failure never reach the page, and parsing
    does not throw. *)
Theorem page_shows_result_or_fixed_message
    buildAnalysisPrompt api apiKey now req requestLog status payload :
  let outcome := handler buildAnalysisPrompt api apiKey now req requestLog in
  reply outcome = Json status payload →
  (∃ message, pageStateOf status payload = ErrorSet message ∧ message ∈ fixedMessages)
  ∨ (∃ call content sections,
       apiCalls outcome = [call] ∧ api call = Resolved content
       ∧ responseText content ≠ []
       ∧ parseAnalysisOutput (responseText content) = Some sections
       ∧ sectionOf (search sectionARegex (responseText content))
                   "No content found for Section A" = Some (sectionA sections)
       ∧ sectionOf (search sectionBRegex (responseText content))
                   "No content found for Section B" = Some (sectionB sections)
       ∧ sectionOf (search sectionCRegex (responseText content))
                   "No content found for Section C" = Some (sectionC sections)
       ∧ pageStateOf status payload = ResultSet sections (responseText content)).
Proof.
  unfold fixedMessages.
  handler_cases; intros [= <- <-];
    try (left; eexists; split; [reflexivity|set_solver]).
  destruct (responseText content) as [|c text] eqn:Htext.
  - left. eexists. split; [reflexivity|set_solver].
  - right.
    destruct (parseAnalysisOutput_sections (c :: text))
      as (sections & Hparse & HA & HB & HC).
    eexists _, content, sections. rewrite Htext.
    rewrite (pageStateOf_success (c :: text)) by done.
    rewrite Hparse. repeat split; done.
Qed.

Lemma page_shows_result_or_fixed_message_witness :
  let fields := {| primaryKeyword := Str (units "k");
                   city := Str (units "c"); state := Str (units "s");
                   highRankingUrl := Str (units "h");
                   lowRankingUrl := Str (units "l") |} in
  let req := {| method := "POST"; forwardedFor := Some "203.0.113.9";
                remoteAddress := None; body := inr fields |} in
  let api := λ _ : ApiCall,
    Resolved [ {| block_type := "text"; block_text := Some (units "no headers here") |} ] in
  let outcome := handler (λ _, []) api (Some "key") 5 req ∅ in
  reply outcome = Json 200 (Success (units "no headers here"))
  ∧ renderedSections {| sectionA := units "No content found for Section A";
                        sectionB := units "No content found for Section B";
                        sectionC := units "No content found for Section C" |}
    = [[P [Plain (units "No content found for Section A")]];
       [P [Plain (units "No content found for Section B")]];
       [P [Plain (units "No content found for Section C")]]]
  ∧ pageStateOf 200 (Success (units "no headers here"))
    = ResultSet {| sectionA := units "No content found for Section A";
                   sectionB := units "No content found for Section B";
                   sectionC := units "No content found for Section C" |}
                (units "no headers here").
Proof.
  intros fields req api outcome.
  assert (reply outcome = Json 200 (Success (units "no headers here")))
    as Hreply by (vm_compute; reflexivity).
  split; [exact Hreply|]. split; [vm_compute; reflexivity|].
  destruct (page_shows_result_or_fixed_message (λ _, []) api (Some "key") 5 req ∅
              200 (Success (units "no headers here")) Hreply)
    as [[message [Hview _]]|(call & content & sections & _ & _ & _ & _ & _ & _ & _ & Hview)].
  - vm_compute in Hview. discriminate Hview.
  - vm_compute. reflexivity.
Defined.

